(** * typed_event.ts: listener registration and dispatch

  A shallow embedding of [makeTypedEventController] and of the three
  methods of the object it returns ([addListener],
  [addPassthroughListener], [fire]) as state-passing functions over a
  store of controller objects.

  Listeners are JavaScript function values supplied by client code.  They
  have effects of their own and may call back into the library, so their
  bodies are given as trees of library calls ([prog]); the embedding of
  the library is parametric in the table [body] of those functions. *)

From stdpp Require Import base list strings.

Set Warnings "-register-all".

(** A controller object is identified by its address in the store. *)
Abbreviation chan := nat.

Section TypedEvent.

(** [T]: payload type of the events.  [E]: values that can be thrown.
    [U]: state of the client program that listeners share.
    [fn]: identities of the client's function values. *)
Context {T E U fn : Type}.

(** ** Data model *)

(** An entry of [_listeners: Array<(_:T) => void>]: either a function of
    the client, or the bound method [controller.fire.bind(controller)]
    built by [addPassthroughListener]. *)
Inductive listener : Type :=
| Closure (f : fn)
| Bound (controller : chan).

(** How a call ends: it returns, it throws, or the model ran out of fuel
    before it ended. *)
Inductive outcome (A : Type) : Type :=
| Normal (a : A)
| Raised (e : E)
| OutOfFuel.
Global Arguments Normal {A} a.
Global Arguments Raised {A} e.
Global Arguments OutOfFuel {A}.

(** Ghost history of a run.  [Registered c l]: [l] was pushed on the
    [_listeners] of [c].  [Invoked c l data inner o]: the loop of [fire]
    on [c] applied [l] to [data]; [inner] is what happened during that
    application and [o] is how it ended. *)
Inductive event : Type :=
| Registered (c : chan) (l : listener)
| Invoked (c : chan) (l : listener) (data : T)
          (inner : list event) (o : outcome unit).

(** The store: [chans !! c] is the [_listeners] array of the controller
    object at address [c]; [ustate] is the client's own state. *)
Record world : Type := World { chans : list (list listener); ustate : U }.

Record result (A : Type) : Type :=
  Result { out : outcome A; final : world; events : list event }.
Global Arguments Result {A} out final events.
Global Arguments out {A} r.
Global Arguments final {A} r.
Global Arguments events {A} r.

(** ** State, exception and history monad *)

Definition M (A : Type) : Type := world -> result A.

Definition ret {A} (a : A) : M A := fun w => Result (Normal a) w [].

Definition raise {A} (e : E) : M A := fun w => Result (Raised e) w [].

Definition out_of_fuel {A} : M A := fun w => Result OutOfFuel w [].

Definition bind {A B} (m : M A) (k : A -> M B) : M B := fun w =>
  let r := m w in
  match out r with
  | Normal a =>
      let r' := k a (final r) in
      Result (out r') (final r') (events r ++ events r')
  | Raised e => Result (Raised e) (final r) (events r)
  | OutOfFuel => Result OutOfFuel (final r) (events r)
  end.

(** [try { m } catch (e) { h e }] *)
Definition catch (m : M unit) (h : E -> M unit) : M unit := fun w =>
  let r := m w in
  match out r with
  | Raised e =>
      let r' := h e (final r) in
      Result (out r') (final r') (events r ++ events r')
  | _ => r
  end.

(** Ghost: wrap the history of one application [listener(data)] made by
    the loop of [fire] on [c] in a single [Invoked] node. *)
Definition observe (c : chan) (l : listener) (data : T) (m : M unit)
  : M unit := fun w =>
  let r := m w in
  Result (out r) (final r) [Invoked c l data (events r) (out r)].

Local Notation "'let*' x ':=' m 'in' k" := (bind m (fun x => k))
  (at level 10, x name, m at level 100, k at level 200).
Local Notation "m1 ';;' m2" := (bind m1 (fun _ => m2))
  (at level 100, m2 at level 200, right associativity).

(** ** The program *)

(** [this._listeners] of the controller at [c].  An address that holds no
    object has no listeners. *)
Definition _listeners (c : chan) (w : world) : list listener :=
  default [] (chans w !! c).

(** [this._listeners.push(listener)].  Addresses are only handed out by
    [makeTypedEventController], so a call on an address that holds no
    object corresponds to nothing in the source; the model makes it
    inert. *)
Definition push (c : chan) (l : listener) : M unit := fun w =>
  match chans w !! c with
  | Some ls =>
      Result (Normal tt)
             (World (<[c := ls ++ [l]]> (chans w)) (ustate w))
             [Registered c l]
  | None => Result (Normal tt) w []
  end.

(** [addListener(listener) { this._listeners.push(listener); }] *)
Definition addListener (this : chan) (l : listener) : M unit :=
  push this l.

(** [addPassthroughListener(controller)
       { this.addListener(controller.fire.bind(controller)); }] *)
Definition addPassthroughListener (this : chan) (controller : chan)
  : M unit :=
  addListener this (Bound controller).

(** [makeTypedEventController()]: allocates an object whose [_listeners]
    is initialised to [[]] and returns it. *)
Definition makeTypedEventController : M chan := fun w =>
  Result (Normal (length (chans w)))
         (World (chans w ++ [[]]) (ustate w))
         [].

(** Bodies of client functions: trees of reads and writes of the client
    state, throws, try/catch, and calls of the four library operations. *)
Inductive prog : Type :=
| Return
| Throw (e : E)
| Get (k : U -> prog)
| Put (u : U) (k : prog)
| CallAddListener (c : chan) (l : listener) (k : prog)
| CallAddPassthroughListener (c controller : chan) (k : prog)
| CallFire (c : chan) (data : T) (k : prog)
| CallMake (k : chan -> prog)
| TryCatch (p : prog) (h : E -> prog) (k : prog).

(** [body f data] is the body of the client function [f] applied to
    [data]. *)
Context (body : fn -> T -> prog).

(** Running a body, given the meaning [fire_] of a call to [fire]. *)
Fixpoint exec (fire_ : chan -> T -> M unit) (p : prog) : M unit :=
  match p with
  | Return => ret tt
  | Throw e => raise e
  | Get k => fun w => exec fire_ (k (ustate w)) w
  | Put u k => fun w => exec fire_ k (World (chans w) u)
  | CallAddListener c l k => addListener c l ;; exec fire_ k
  | CallAddPassthroughListener c c2 k =>
      addPassthroughListener c c2 ;; exec fire_ k
  | CallFire c data k => fire_ c data ;; exec fire_ k
  | CallMake k => let* c := makeTypedEventController in exec fire_ (k c)
  | TryCatch p h k =>
      catch (exec fire_ p) (fun e => exec fire_ (h e)) ;; exec fire_ k
  end.

(** The application [listener(data)]. *)
Definition call (fire_ : chan -> T -> M unit) (l : listener) (data : T)
  : M unit :=
  match l with
  | Closure f => exec fire_ (body f data)
  | Bound controller => fire_ controller data
  end.

(** [for (let listener of this._listeners) { listener(data); }]

    The array iterator keeps an index [i]; each step compares it with the
    current length of the array and reads the current element at [i], so
    the loop sees entries pushed while it runs.  An exception thrown by
    [listener(data)] leaves the loop and the method.  One unit of fuel is
    spent per step of the iterator. *)
Fixpoint fire_loop (fuel : nat) (this : chan) (data : T) (i : nat)
  : M unit :=
  match fuel with
  | 0 => out_of_fuel
  | S fuel' => fun w =>
      match _listeners this w !! i with
      | None => ret tt w
      | Some l =>
          (observe this l data
             (call (fun c d => fire_loop fuel' c d 0) l data) ;;
           fire_loop fuel' this data (S i)) w
      end
  end.

(** [fire(data)] *)
Definition fire (fuel : nat) (this : chan) (data : T) : M unit :=
  fire_loop fuel this data 0.

(** ** Reading a history *)

(** Listeners pushed on [c] during the run, at any depth, in order. *)
Fixpoint registrations (c : chan) (ev : event) : list listener :=
  match ev with
  | Registered c' l => if decide (c' = c) then [l] else []
  | Invoked _ _ _ inner _ => flat_map (registrations c) inner
  end.

Definition registered (c : chan) (evs : list event) : list listener :=
  flat_map (registrations c) evs.

(** The applications [l(data)] made by the run itself (not those made
    inside them), in order. *)
Definition invocation (ev : event) : option (listener * T) :=
  match ev with
  | Invoked _ l data _ _ => Some (l, data)
  | Registered _ _ => None
  end.

Definition calls (evs : list event) : list (listener * T) :=
  omap invocation evs.

(** All the applications [l(data)] made during the run, at any depth, in
    the order in which they started. *)
Fixpoint applications (ev : event) : list (listener * T) :=
  match ev with
  | Registered _ _ => []
  | Invoked _ l data inner _ => (l, data) :: flat_map applications inner
  end.

Definition applied (evs : list event) : list (listener * T) :=
  flat_map applications evs.

(** A computation under which the arrays only grow, by exactly what the
    history says was pushed. *)
Definition grows {A} (m : M A) : Prop :=
  forall w c,
    _listeners c (final (m w))
    = _listeners c w ++ registered c (events (m w)).

(** ** The loop of [fire], step by step *)

(** [loop_run c data i w r]: started at index [i] in store [w], the loop
    of [fire] on [c] can produce [r].  Each application of a listener is a
    run of [call] with some amount of fuel. *)
Inductive loop_run (c : chan) (data : T)
  : nat -> world -> result unit -> Prop :=
| loop_end i w :
    _listeners c w !! i = None ->
    loop_run c data i w (Result (Normal tt) w [])
| loop_starved i w :
    loop_run c data i w (Result OutOfFuel w [])
| loop_next i w l fuel rest :
    _listeners c w !! i = Some l ->
    out (call (fire fuel) l data w) = Normal tt ->
    loop_run c data (S i) (final (call (fire fuel) l data w)) rest ->
    loop_run c data i w
      (Result (out rest) (final rest)
         (Invoked c l data (events (call (fire fuel) l data w)) (Normal tt)
            :: events rest))
| loop_abort i w l fuel :
    _listeners c w !! i = Some l ->
    out (call (fire fuel) l data w) <> Normal tt ->
    loop_run c data i w
      (Result (out (call (fire fuel) l data w))
         (final (call (fire fuel) l data w))
         [Invoked c l data (events (call (fire fuel) l data w))
            (out (call (fire fuel) l data w))]).

(** ** Clients *)

(** [for (const l of ls) this.addListener(l)] *)
Fixpoint addListeners (this : chan) (ls : list listener) : M unit :=
  match ls with
  | [] => ret tt
  | l :: ls => addListener this l ;; addListeners this ls
  end.

(** A listener that, applied to [data], returns whatever the fuel and
    leaves every array as it was: it neither throws nor calls [fire] nor
    registers anything. *)
Definition quiet (data : T) (l : listener) : Prop :=
  forall fuel w,
    out (call (fire fuel) l data w) = Normal tt /\
    chans (final (call (fire fuel) l data w)) = chans w.

(** A listener that, applied to [data] in a store whose arrays are [chs],
    returns once the fuel reaches [n] and leaves the arrays as they
    were. *)
Definition returns_in (data : T) (n : nat) (chs : list (list listener))
           (l : listener) : Prop :=
  forall fuel w,
    n <= fuel -> chans w = chs ->
    out (call (fire fuel) l data w) = Normal tt /\
    chans (final (call (fire fuel) l data w)) = chs.

(** [m2] does what [m1] does wherever [m1] does not run out of fuel. *)
Definition extends {A} (m1 m2 : M A) : Prop :=
  forall w, out (m1 w) <> OutOfFuel -> m2 w = m1 w.

(** ** The two interfaces *)

(** [interface TypedEvent<T>]: one constructor per method it declares. *)
Inductive TypedEvent_op : Type :=
| OpAddListener (l : listener)
| OpAddPassthroughListener (controller : chan).

(** [interface TypedEventController<T> extends TypedEvent<T>]: the
    inherited methods and [fire]. *)
Inductive TypedEventController_op : Type :=
| OpTypedEvent (op : TypedEvent_op)
| OpFire (data : T).

(** A method call through a handle of type [TypedEvent<T>]. *)
Definition TypedEvent_run (this : chan) (op : TypedEvent_op) : M unit :=
  match op with
  | OpAddListener l => addListener this l
  | OpAddPassthroughListener controller =>
      addPassthroughListener this controller
  end.

(** A method call through a handle of type [TypedEventController<T>]. *)
Definition TypedEventController_run (fuel : nat) (this : chan)
           (op : TypedEventController_op) : M unit :=
  match op with
  | OpTypedEvent op => TypedEvent_run this op
  | OpFire data => fire fuel this data
  end.

(** Any number of calls through handles of type [TypedEvent<T>]. *)
Fixpoint TypedEvent_runs (ops : list (chan * TypedEvent_op)) : M unit :=
  match ops with
  | [] => ret tt
  | (this, op) :: ops => TypedEvent_run this op ;; TypedEvent_runs ops
  end.

End TypedEvent.

(** ** [addPassthroughListener] as the specification words it *)

Section PassthroughSpec.

Context {T E U fn : Type}.

(** The body of "a newly constructed listener whose body, given payload
    [d], invokes the target's firing operation with [d]". *)
Definition forwarder (target : chan) (d : T) : @prog T E U fn :=
  CallFire target d Return.

(** [f] is the client function with that body, [target] its target. *)
Variables (f : fn) (target : chan).

(** "equivalent to calling [addListener] with" that listener. *)
Definition addPassthroughListener_spec (this : chan) : @M T E U fn unit :=
  addListener this (Closure f).

(** Two stores, results or histories are similar when they differ only in
    that entries [controller.fire.bind(controller)] for [target] on one
    side are the function [f] on the other. *)
Inductive sim_listener : @listener fn -> @listener fn -> Prop :=
| sim_same l : sim_listener l l
| sim_forwarder : sim_listener (Bound target) (Closure f).

Inductive sim_event : @event T E fn -> @event T E fn -> Prop :=
| sim_Registered c l1 l2 :
    sim_listener l1 l2 ->
    sim_event (Registered c l1) (Registered c l2)
| sim_Invoked c l1 l2 data inner1 inner2 o :
    sim_listener l1 l2 ->
    Forall2 sim_event inner1 inner2 ->
    sim_event (Invoked c l1 data inner1 o) (Invoked c l2 data inner2 o).

Definition sim_world (w1 w2 : @world U fn) : Prop :=
  Forall2 (Forall2 sim_listener) (chans w1) (chans w2) /\
  ustate w1 = ustate w2.

Definition sim_result {A} (r1 r2 : @result T E U fn A) : Prop :=
  out r1 = out r2 /\
  sim_world (final r1) (final r2) /\
  Forall2 sim_event (events r1) (events r2).

Definition sim {A} (m1 m2 : @M T E U fn A) : Prop :=
  forall w1 w2, sim_world w1 w2 -> sim_result (m1 w1) (m2 w2).

End PassthroughSpec.

(** ** A client program, for running the model *)

Module Example.

(** The client's functions. *)
Inductive name : Type := a | b | c | failing | subscriber | relay.

#[global] Instance name_eq_dec : EqDecision name.
Proof. solve_decision. Defined.

(** Payloads are numbers, thrown values are strings, and the shared state
    is a log of which function received what. *)
Definition log (who : name) (d : nat)
  : @prog nat string (list (name * nat)) name :=
  Get (fun u => Put (u ++ [(who, d)]) Return).

Definition body (f : name) (d : nat)
  : @prog nat string (list (name * nat)) name :=
  match f with
  | a => log a d
  | b => log b d
  | c => log c d
  | failing => Throw "boom"
  | subscriber => CallAddListener 0 (Closure b) Return
  | relay => forwarder 1 d
  end.

(** A store with no controller and an empty log. *)
Definition start : @world (list (name * nat)) name := World [] [].

(** A store with one controller whose array is [ls]. *)
Definition one (ls : list (@listener name))
  : @world (list (name * nat)) name := World [ls] [].

(** A store with two controllers. *)
Definition two (ls0 ls1 : list (@listener name))
  : @world (list (name * nat)) name := World [ls0; ls1] [].

End Example.

#[global] Instance listener_eq_dec {fn} `{EqDecision fn}
: EqDecision (@listener fn).
Proof. solve_decision. Defined.

(** ** A client whose listener registers itself *)

Module Grower.

(** [const grow = (d) => { E.addListener(grow); }] with [E] the controller
    at address 0: the only client function, with nothing thrown and no
    client state. *)
Definition body (f : unit) (d : nat) : @prog nat string unit unit :=
  CallAddListener 0 (Closure f) Return.

(** A store whose one controller has [grow] registered [n] times. *)
Definition store (n : nat) : @world unit unit :=
  World [replicate n (Closure tt)] tt.

End Grower.

(** ** Passthrough graphs and series of registrations *)

Section Forwarding.

Context {T E U fn : Type}.

(** [forwards w A B]: following entries
    [controller.fire.bind(controller)] of the arrays of [w] leads from the
    controller [A] to the controller [B]. *)
Inductive forwards (w : @world U fn) : chan -> chan -> Prop :=
| forwards_here A : forwards w A A
| forwards_next A B C :
    Bound B ∈ _listeners A w -> forwards w B C -> forwards w A C.

(** The entry that a method of [TypedEvent<T>] pushes: [addListener] its
    argument, [addPassthroughListener] the bound [fire] of its argument. *)
Definition entry (op : @TypedEvent_op fn) : @listener fn :=
  match op with
  | OpAddListener l => l
  | OpAddPassthroughListener controller => Bound controller
  end.

(** The entries that a series of calls pushes on [c], in call order. *)
Definition entries_for (c : chan) (ops : list (chan * @TypedEvent_op fn))
  : list (@listener fn) :=
  omap (fun p => if decide (p.1 = c) then Some (entry p.2) else None) ops.

(** In the run of [m] from [w], whatever was applied is an entry of some
    array of the store the run leaves. *)
Definition applies_entries {A} (m : @M T E U fn A) (w : @world U fn) : Prop :=
  forall l d,
    (l, d) ∈ applied (events (m w)) ->
    exists c, l ∈ _listeners c (final (m w)).

End Forwarding.

(** * Properties *)

Section Properties.

Context {T E U fn : Type} (body : fn -> T -> @prog T E U fn).

Implicit Types (w : @world U fn) (l : @listener fn) (data : T).
Implicit Types (evs : list (@event T E fn)) (e : E).
Implicit Types (r : @result T E U fn unit).

Local Abbreviation M := (@M T E U fn).
Local Abbreviation addListener := (@addListener T E U fn).
Local Abbreviation addPassthroughListener :=
  (@addPassthroughListener T E U fn).
Local Abbreviation makeTypedEventController :=
  (@makeTypedEventController T E U fn).
Local Abbreviation addListeners := (@addListeners T E U fn).
Local Abbreviation TypedEvent_run := (@TypedEvent_run T E U fn).
Local Abbreviation TypedEvent_runs := (@TypedEvent_runs T E U fn).

Lemma calls_Invoked c l data inner o evs :
  calls (Invoked c l data inner o :: evs) = (l, data) :: calls evs.
Proof. done. Qed.

Lemma calls_Registered c l evs : calls (Registered c l :: evs) = calls evs.
Proof. done. Qed.

Lemma calls_app evs1 evs2 : calls (evs1 ++ evs2) = calls evs1 ++ calls evs2.
Proof. apply omap_app. Qed.

Lemma applied_app evs1 evs2 :
  applied (evs1 ++ evs2) = applied evs1 ++ applied evs2.
Proof. apply flat_map_app. Qed.

Lemma calls_applied evs (x : listener * T) : x ∈ calls evs -> x ∈ applied evs.
Proof.
  induction evs as [|[c l|c l data inner o] evs IH].
  - done.
  - rewrite calls_Registered. apply IH.
  - rewrite calls_Invoked. intros [->|Hin]%elem_of_cons.
    + left.
    + change (applied (Invoked c l data inner o :: evs))
        with (applications (Invoked c l data inner o) ++ applied evs).
      apply elem_of_app. right. by apply IH.
Qed.

Lemma registered_app c evs1 evs2 :
  registered c (evs1 ++ evs2) = registered c evs1 ++ registered c evs2.
Proof. apply flat_map_app. Qed.

Lemma grows_ret {A} (a : A) : grows (ret a : M A).
Proof. intros w c. cbn. by rewrite app_nil_r. Qed.

Lemma grows_raise {A} e : grows (raise e : M A).
Proof. intros w c. cbn. by rewrite app_nil_r. Qed.

Lemma grows_out_of_fuel {A} : grows (out_of_fuel : M A).
Proof. intros w c. cbn. by rewrite app_nil_r. Qed.

Lemma grows_bind {A B} (m : M A) (k : A -> M B) :
  grows m -> (forall a, grows (k a)) -> grows (bind m k).
Proof.
  intros Hm Hk w c. unfold bind. specialize (Hm w c).
  destruct (out (m w)) as [a| |]; cbn [out final events]; [|done..].
  by rewrite (Hk a), Hm, registered_app, app_assoc.
Qed.

Lemma grows_catch (m : M unit) h :
  grows m -> (forall e, grows (h e)) -> grows (catch m h).
Proof.
  intros Hm Hh w c. unfold catch. specialize (Hm w c).
  destruct (out (m w)) as [a|e|]; cbn [out final events]; [done| |done].
  by rewrite (Hh e), Hm, registered_app, app_assoc.
Qed.

Lemma grows_observe c l data (m : M unit) :
  grows m -> grows (observe c l data m).
Proof.
  intros Hm w c'. unfold observe, registered. cbn.
  rewrite app_nil_r. apply Hm.
Qed.

Lemma grows_push c l : grows (push c l : M unit).
Proof.
  intros w c'. unfold push, _listeners, registered.
  destruct (chans w !! c) as [ls|] eqn:Hc; cbn; [|by rewrite app_nil_r].
  rewrite app_nil_r. case_decide as Hcc; subst.
  - rewrite list_lookup_insert_eq by (by eapply lookup_lt_Some).
    by rewrite Hc.
  - rewrite list_lookup_insert_ne by done. by rewrite app_nil_r.
Qed.

Lemma grows_makeTypedEventController :
  grows (makeTypedEventController : M chan).
Proof.
  intros w c. unfold makeTypedEventController, _listeners. cbn.
  rewrite app_nil_r.
  destruct (decide (c < length (chans w))) as [Hlt|Hge].
  - by rewrite lookup_app_l.
  - rewrite lookup_app_r by lia.
    rewrite (lookup_ge_None_2 (chans w)) by lia.
    by destruct (c - length (chans w)) as [|[|?]].
Qed.

Lemma grows_exec (fire_ : chan -> T -> M unit) p :
  (forall c d, grows (fire_ c d)) -> grows (exec fire_ p).
Proof.
  intros Hf. induction p as [|e|k IH|u k IH|c l k IH|c c2 k IH|c d k IH
                            |k IH|p IHp h IHh k IHk]; cbn [exec].
  - apply grows_ret.
  - apply grows_raise.
  - intros w c. apply (IH (ustate w)).
  - intros w c. apply (IH (World (chans w) u)).
  - apply grows_bind; [apply grows_push|done].
  - apply grows_bind; [apply grows_push|done].
  - apply grows_bind; [apply Hf|done].
  - apply grows_bind; [apply grows_makeTypedEventController|done].
  - apply grows_bind; [|done]. by apply grows_catch.
Qed.

Lemma grows_call (fire_ : chan -> T -> M unit) l data :
  (forall c d, grows (fire_ c d)) -> grows (call body fire_ l data).
Proof. intros Hf. destruct l; cbn; [by apply grows_exec|apply Hf]. Qed.

Lemma grows_fire_loop fuel c data i :
  grows (fire_loop body fuel c data i).
Proof.
  revert c data i. induction fuel as [|fuel IH]; intros c data i.
  - apply grows_out_of_fuel.
  - intros w c'. cbn [fire_loop].
    destruct (_listeners c w !! i) as [l|]; [|apply grows_ret].
    apply grows_bind; [|done].
    apply grows_observe, grows_call. intros; apply IH.
Qed.

Lemma grows_fire fuel c data : grows (fire body fuel c data).
Proof. apply grows_fire_loop. Qed.

Lemma fire_loop_run fuel c data i w :
  loop_run body c data i w (fire_loop body fuel c data i w).
Proof.
  revert i w. induction fuel as [|fuel IH]; intros i w.
  - apply loop_starved.
  - cbn [fire_loop].
    destruct (_listeners c w !! i) as [l|] eqn:Hl; [|by apply loop_end].
    unfold bind, observe. cbn [out final events].
    change (fun c0 d => fire_loop body fuel c0 d 0) with (fire body fuel).
    destruct (out (call body (fire body fuel) l data w)) as [[]|e|] eqn:Ho.
    + cbn [app]. by apply loop_next.
    + rewrite <- Ho. apply loop_abort; [done|congruence].
    + rewrite <- Ho. apply loop_abort; [done|congruence].
Qed.

Lemma fire_run fuel c data w : loop_run body c data 0 w (fire body fuel c data w).
Proof. apply fire_loop_run. Qed.

Lemma loop_run_grows c data i w r :
  loop_run body c data i w r ->
  forall c', _listeners c' (final r)
             = _listeners c' w ++ registered c' (events r).
Proof.
  induction 1 as [i w _|i w|i w l fuel rest _ _ _ IH|i w l fuel _ _];
    intros c'; cbn [out final events].
  - by rewrite app_nil_r.
  - by rewrite app_nil_r.
  - rewrite IH, (grows_call (fire body fuel) l data) by apply grows_fire.
    by rewrite <- app_assoc.
  - rewrite (grows_call (fire body fuel) l data) by apply grows_fire.
    f_equal. unfold registered. cbn. by rewrite app_nil_r.
Qed.

Lemma grows_prefix {A} (m : M A) w c :
  grows m -> _listeners c w `prefix_of` _listeners c (final (m w)).
Proof. intros Hm. rewrite (Hm w c). by apply prefix_app_r. Qed.

Lemma call_prefix fuel l data w c :
  _listeners c w
    `prefix_of` _listeners c (final (call body (fire body fuel) l data w)).
Proof. apply grows_prefix, grows_call. intros; apply grows_fire. Qed.

Lemma loop_run_prefix c data i w r c' :
  loop_run body c data i w r ->
  _listeners c' w `prefix_of` _listeners c' (final r).
Proof.
  intros Hrun. rewrite (loop_run_grows _ _ _ _ _ Hrun c').
  by apply prefix_app_r.
Qed.

(** What the [j]-th application made by the loop is: the entry at index
    [i + j] of the array as it was then, applied in a store that extends
    the initial one; unless it returned, it is the last one and its
    outcome is the outcome of the loop. *)
Lemma loop_run_lookup c data i w r j ev :
  loop_run body c data i w r ->
  events r !! j = Some ev ->
  exists l fuel wj,
    let rc := call body (fire body fuel) l data wj in
    (forall c', _listeners c' w `prefix_of` _listeners c' wj) /\
    _listeners c wj !! (i + j) = Some l /\
    ev = Invoked c l data (events rc) (out rc) /\
    (forall c', _listeners c' (final rc) `prefix_of` _listeners c' (final r)) /\
    (S j < length (events r) -> out rc = Normal tt) /\
    (out rc <> Normal tt ->
     out r = out rc /\ final r = final rc /\ length (events r) = S j).
Proof.
  intros Hrun. revert j.
  induction Hrun as [i w _|i w|i w l fuel rest Hl Ho Hrest IH
                    |i w l fuel Hl Ho]; intros j Hj; cbn [events] in Hj.
  - done.
  - done.
  - destruct j as [|j]; cbn in Hj.
    + exists l, fuel, w. cbn zeta. rewrite Ho. simplify_eq.
      split_and!; try done.
      * by rewrite Nat.add_0_r.
      * intros c'. cbn [final]. by eapply loop_run_prefix.
    + destruct (IH j Hj) as (l' & fuel' & wj & Hpre & Hlj & -> & Hpost
                               & Hmid & Hlast).
      exists l', fuel', wj. cbn zeta. cbn [out final events length].
      split_and!; try done.
      * intros c'. etrans; [apply call_prefix|apply Hpre].
      * by rewrite Nat.add_succ_r.
      * intros ?. apply Hmid. lia.
      * intros Hne. destruct (Hlast Hne) as (? & ? & ?).
        split_and!; [done..|lia].
  - destruct j as [|j]; cbn in Hj; [|done].
    exists l, fuel, w. cbn zeta. cbn [out final events length].
    simplify_eq. split_and!; try done.
    + by rewrite Nat.add_0_r.
    + intros ?. lia.
Qed.

(** The applications made by the loop follow the array from index [i],
    each with the payload of the firing; they cover all of it when the
    loop returns. *)
Lemma loop_run_calls c data i w r :
  loop_run body c data i w r ->
  calls (events r)
    `prefix_of` ((fun l => (l, data)) <$> drop i (_listeners c (final r)))
  /\ (out r = Normal tt ->
      calls (events r)
      = (fun l => (l, data)) <$> drop i (_listeners c (final r))).
Proof.
  induction 1 as [i w Hl|i w|i w l fuel rest Hl Ho Hrest [IH1 IH2]
                 |i w l fuel Hl Ho]; cbn [out final events].
  - split; [apply prefix_nil|]. intros _.
    rewrite drop_ge; [done|]. by apply lookup_ge_None.
  - split; [apply prefix_nil|done].
  - assert (_listeners c (final rest) !! i = Some l) as Hi.
    { eapply prefix_lookup_Some; [|by eapply loop_run_prefix].
      eapply prefix_lookup_Some; [done|apply call_prefix]. }
    rewrite (drop_S _ _ _ Hi), calls_Invoked, fmap_cons.
    split; [by apply prefix_cons|]. intros Hn. by rewrite IH2.
  - split; [|done].
    assert (_listeners c (final (call body (fire body fuel) l data w)) !! i = Some l)
      as Hi by (eapply prefix_lookup_Some; [done|apply call_prefix]).
    rewrite (drop_S _ _ _ Hi), calls_Invoked, fmap_cons.
    apply prefix_cons, prefix_nil.
Qed.

Lemma loop_run_roots c data i w r :
  loop_run body c data i w r ->
  Forall (fun ev => exists l inner o, ev = Invoked c l data inner o)
         (events r).
Proof.
  induction 1; cbn [events]; repeat constructor; eauto.
Qed.

Lemma loop_run_raised c data i w r e :
  loop_run body c data i w r ->
  out r = Raised e ->
  exists j l inner,
    events r !! j = Some (Invoked c l data inner (Raised e)) /\
    length (events r) = S j.
Proof.
  induction 1 as [i w Hl|i w|i w l fuel rest Hl Ho Hrest IH
                 |i w l fuel Hl Ho]; cbn [out final events]; intros Hr.
  - done.
  - done.
  - destruct (IH Hr) as (j & l' & inner & Hj & Hlen).
    exists (S j), l', inner. cbn. by rewrite Hlen.
  - exists 0, l, (events (call body (fire body fuel) l data w)). by rewrite Hr.
Qed.

Lemma loop_run_normal c data i w r :
  loop_run body c data i w r ->
  out r = Normal tt ->
  Forall (fun ev => exists l inner, ev = Invoked c l data inner (Normal tt))
         (events r).
Proof.
  induction 1 as [i w Hl|i w|i w l fuel rest Hl Ho Hrest IH
                 |i w l fuel Hl Ho]; cbn [out final events]; intros Hr.
  - constructor.
  - done.
  - constructor; eauto.
  - done.
Qed.


Lemma calls_length_roots c data evs :
  Forall (fun ev => exists l inner o, ev = Invoked c l data inner o) evs ->
  length (calls evs) = length evs.
Proof.
  induction 1 as [|ev evs (l & inner & o & ->) _ IH]; [done|].
  rewrite calls_Invoked. cbn. by rewrite IH.
Qed.

Lemma prefix_take_length {A} (l1 l2 : list A) :
  l1 `prefix_of` l2 -> l1 = take (length l1) l2.
Proof. intros [k ->]. by rewrite take_app_length. Qed.

(** ** Registration *)

Lemma addListener_spec this l w ls :
  chans w !! this = Some ls ->
  addListener this l w
  = Result (Normal tt) (World (<[this := ls ++ [l]]> (chans w)) (ustate w))
           [Registered this l].
Proof. intros Hc. unfold addListener, push. by rewrite Hc. Qed.

Lemma grows_addListener this l : grows (addListener this l).
Proof. apply grows_push. Qed.

Lemma addListener_listeners this l w :
  this < length (chans w) ->
  _listeners this (final (addListener this l w))
  = _listeners this w ++ [l].
Proof.
  intros Hlt. destruct (lookup_lt_is_Some_2 _ _ Hlt) as [ls Hc].
  rewrite (grows_addListener this l w this). f_equal.
  rewrite (addListener_spec _ _ _ _ Hc). unfold registered. cbn.
  by rewrite decide_True.
Qed.

Lemma addListener_others this l w c :
  c <> this ->
  _listeners c (final (addListener this l w)) = _listeners c w.
Proof.
  intros Hne. rewrite (grows_addListener this l w c).
  unfold addListener, push, registered. destruct (chans w !! this); cbn;
    [rewrite decide_False by done|]; cbn; by rewrite app_nil_r.
Qed.

Lemma addListener_length this l w :
  length (chans (final (addListener this l w))) = length (chans w).
Proof.
  unfold addListener, push. destruct (chans w !! this); cbn; [|done].
  by rewrite length_insert.
Qed.

Lemma addListener_out this l w : out (addListener this l w) = Normal tt.
Proof. unfold addListener, push. by destruct (chans w !! this). Qed.

Lemma addListeners_listeners this ls w :
  this < length (chans w) ->
  _listeners this (final (addListeners this ls w))
  = _listeners this w ++ ls.
Proof.
  revert w. induction ls as [|l ls IH]; intros w Hlt.
  - cbn. by rewrite app_nil_r.
  - cbn [addListeners]. unfold bind. rewrite addListener_out.
    cbn [final]. rewrite IH by (by rewrite addListener_length).
    rewrite addListener_listeners by done. by rewrite <- app_assoc.
Qed.

Lemma makeTypedEventController_fresh w :
  out (makeTypedEventController w) = Normal (length (chans w)) /\
  _listeners (length (chans w)) (final (makeTypedEventController w)) = [] /\
  length (chans w) < length (chans (final (makeTypedEventController w))).
Proof.
  unfold makeTypedEventController, _listeners. cbn. split_and!; [done| |].
  - rewrite lookup_app_r by lia. by rewrite Nat.sub_diag.
  - rewrite length_app. cbn. lia.
Qed.

(** ** Listeners that return *)

Lemma quiet_returns_in data l chs :
  quiet body data l -> returns_in body data 0 chs l.
Proof. intros Hq fuel w _ <-. apply Hq. Qed.

Lemma returns_in_le data n n' chs l :
  n <= n' -> returns_in body data n chs l -> returns_in body data n' chs l.
Proof. intros Hle Hr fuel w Hfuel Hch. apply Hr; [lia|done]. Qed.

Lemma fire_loop_returns fuel n c data i w :
  Forall (returns_in body data n (chans w)) (_listeners c w) ->
  n + (length (_listeners c w) - i) < fuel ->
  out (fire_loop body fuel c data i w) = Normal tt /\
  chans (final (fire_loop body fuel c data i w)) = chans w /\
  calls (events (fire_loop body fuel c data i w))
  = (fun l => (l, data)) <$> drop i (_listeners c w).
Proof.
  revert i w. induction fuel as [|fuel IH]; intros i w Hq Hfuel; [lia|].
  cbn [fire_loop].
  destruct (_listeners c w !! i) as [l|] eqn:Hl.
  - assert (returns_in body data n (chans w) l) as Hql.
    { eapply Forall_forall; [done|]. by eapply list_elem_of_lookup_2. }
    destruct (Hql fuel w) as [Ho Hch]; [lia|done|].
    unfold bind, observe. cbn [out final events].
    change (fun c0 d => fire_loop body fuel c0 d 0) with (fire body fuel).
    rewrite Ho. cbn [out final events].
    assert (_listeners c (final (call body (fire body fuel) l data w))
            = _listeners c w) as Hsame by (unfold _listeners; by rewrite Hch).
    apply lookup_lt_Some in Hl as Hlt.
    destruct (IH (S i) (final (call body (fire body fuel) l data w)))
      as (Ho' & Hch' & Hcalls);
      [by rewrite Hsame, Hch|rewrite Hsame; lia|].
    split_and!; [done|congruence|].
    cbn [app]. rewrite calls_Invoked, Hcalls, Hsame.
    by rewrite (drop_S _ _ _ Hl).
  - cbn. split_and!; [done..|].
    rewrite drop_ge; [done|]. by apply lookup_ge_None.
Qed.

Lemma fire_loop_quiet fuel c data i w :
  Forall (quiet body data) (_listeners c w) ->
  length (_listeners c w) - i < fuel ->
  out (fire_loop body fuel c data i w) = Normal tt /\
  chans (final (fire_loop body fuel c data i w)) = chans w /\
  calls (events (fire_loop body fuel c data i w))
  = (fun l => (l, data)) <$> drop i (_listeners c w).
Proof.
  intros Hq Hfuel. apply (fire_loop_returns fuel 0); [|done].
  eapply Forall_impl; [done|]. intros l. apply quiet_returns_in.
Qed.

Lemma fire_quiet fuel c data w :
  Forall (quiet body data) (_listeners c w) ->
  length (_listeners c w) < fuel ->
  out (fire body fuel c data w) = Normal tt /\
  chans (final (fire body fuel c data w)) = chans w /\
  calls (events (fire body fuel c data w))
  = (fun l => (l, data)) <$> _listeners c w.
Proof.
  intros Hq Hfuel.
  destruct (fire_loop_quiet fuel c data 0 w Hq) as (? & ? & ?); [lia|].
  done.
Qed.

(** The bound [fire] of a controller whose listeners only return. *)
Lemma Bound_returns_in data B chs :
  Forall (quiet body data) (default [] (chs !! B)) ->
  returns_in body data (S (length (default [] (chs !! B)))) chs (Bound B).
Proof.
  intros Hq fuel w Hfuel <-. cbn [call].
  destruct (fire_quiet fuel B data w) as (Ho & Hch & _);
    [done|unfold _listeners; lia|done].
Qed.

(** ** More fuel changes nothing once a run ends *)

Lemma extends_bind {A B} (m1 m2 : M A) (k1 k2 : A -> M B) :
  extends m1 m2 -> (forall a, extends (k1 a) (k2 a)) ->
  extends (bind m1 k1) (bind m2 k2).
Proof.
  intros Hm Hk w. unfold bind. intros Hend.
  assert (out (m1 w) <> OutOfFuel) as Hm1
    by (intros Heq; by rewrite Heq in Hend).
  rewrite (Hm w Hm1).
  destruct (out (m1 w)) as [a| |] eqn:Ho; [|done..].
  cbn [out] in Hend. by rewrite (Hk a _ Hend).
Qed.

Lemma extends_catch (m1 m2 : M unit) h1 h2 :
  extends m1 m2 -> (forall e, extends (h1 e) (h2 e)) ->
  extends (catch m1 h1) (catch m2 h2).
Proof.
  intros Hm Hh w. unfold catch. intros Hend.
  assert (out (m1 w) <> OutOfFuel) as Hm1
    by (intros Heq; by rewrite Heq in Hend).
  rewrite (Hm w Hm1).
  destruct (out (m1 w)) as [a|e|] eqn:Ho; [done| |done].
  cbn [out] in Hend. by rewrite (Hh e _ Hend).
Qed.

Lemma extends_observe c l data (m1 m2 : M unit) :
  extends m1 m2 -> extends (observe c l data m1) (observe c l data m2).
Proof. intros Hm w. unfold observe. intros Hend. by rewrite (Hm w). Qed.

Lemma extends_refl {A} (m : M A) : extends m m.
Proof. by intros w _. Qed.

Lemma extends_exec (fire1 fire2 : chan -> T -> M unit) p :
  (forall c d, extends (fire1 c d) (fire2 c d)) ->
  extends (exec fire1 p) (exec fire2 p).
Proof.
  intros Hfire.
  induction p as [|e|k IH|u k IH|c l k IH|c c2 k IH|c d k IH
                 |k IH|p IHp h IHh k IHk]; cbn [exec].
  - apply extends_refl.
  - apply extends_refl.
  - intros w. apply IH.
  - intros w. apply IH.
  - apply extends_bind; [apply extends_refl|done].
  - apply extends_bind; [apply extends_refl|done].
  - apply extends_bind; [apply Hfire|done].
  - apply extends_bind; [apply extends_refl|done].
  - apply extends_bind; [|done]. by apply extends_catch.
Qed.

Lemma extends_call (fire1 fire2 : chan -> T -> M unit) l data :
  (forall c d, extends (fire1 c d) (fire2 c d)) ->
  extends (call body fire1 l data) (call body fire2 l data).
Proof.
  intros Hfire. destruct l; cbn [call]; [by apply extends_exec|apply Hfire].
Qed.

Lemma fire_loop_more_fuel fuel fuel' c data i :
  fuel <= fuel' ->
  extends (fire_loop body fuel c data i) (fire_loop body fuel' c data i).
Proof.
  revert fuel' c data i.
  induction fuel as [|fuel IH]; intros fuel' c data i Hle; [by intros w|].
  destruct fuel' as [|fuel']; [lia|]. cbn [fire_loop]. intros w.
  destruct (_listeners c w !! i) as [l|]; [|done].
  apply extends_bind.
  - apply extends_observe, extends_call. intros c' d. apply IH. lia.
  - intros _. apply IH. lia.
Qed.

(** If [fire] ends with some fuel, it does the same with any larger
    fuel. *)
Lemma fire_more_fuel fuel fuel' c data w :
  fuel <= fuel' ->
  out (fire body fuel c data w) <> OutOfFuel ->
  fire body fuel' c data w = fire body fuel c data w.
Proof. intros Hle. by apply fire_loop_more_fuel. Qed.

(** The loop spends one unit of fuel per application: when [fire] runs out
    of fuel, either the last application it made did, or it made as many
    applications as it had fuel. *)
Lemma fire_loop_out_of_fuel fuel c data i w :
  out (fire_loop body fuel c data i w) = OutOfFuel ->
  (exists l inner,
     last (events (fire_loop body fuel c data i w))
     = Some (Invoked c l data inner OutOfFuel)) \/
  length (events (fire_loop body fuel c data i w)) = fuel.
Proof.
  revert i w. induction fuel as [|fuel IH]; intros i w; [by right|].
  cbn [fire_loop]. destruct (_listeners c w !! i) as [l|]; [|done].
  unfold bind, observe. cbn [out final events].
  change (fun c0 d => fire_loop body fuel c0 d 0) with (fire body fuel).
  destruct (out (call body (fire body fuel) l data w)) as [[]|e|] eqn:Ho;
    cbn [out final events]; [|done|by left; eauto].
  intros Hout. destruct (IH _ _ Hout) as [(l' & inner & Hlast)|Hlen].
  - left. exists l', inner. cbn [app].
    destruct (events (fire_loop body fuel c data (S i)
                        (final (call body (fire body fuel) l data w))));
      [done|]. by rewrite last_cons_cons.
  - right. cbn. by rewrite Hlen.
Qed.

(** ** The claims *)

(** C1.  On a controller returned by [makeTypedEventController] on which
    [L1..Ln] were registered in that order with [addListener], the
    applications made by one [fire(d)] always follow the registration order
    and always receive [d]; when the firing returns and no listener
    registered on the controller meanwhile, they are exactly
    [L1(d), ..., Ln(d)]; and for listeners that only return, the firing does
    return as soon as the fuel exceeds [n]. *)
Theorem fire_registration_order (Ls : list listener) data w0 fuel c :
  out (makeTypedEventController w0) = Normal c ->
  let w := final (addListeners c Ls (final (makeTypedEventController w0))) in
  let r := fire body fuel c data w in
  calls (events r)
    `prefix_of` ((fun l => (l, data)) <$> (Ls ++ registered c (events r))) /\
  (out r = Normal tt -> registered c (events r) = [] ->
   calls (events r) = (fun l => (l, data)) <$> Ls) /\
  (Forall (quiet body data) Ls -> length Ls < fuel ->
   out r = Normal tt /\ calls (events r) = (fun l => (l, data)) <$> Ls).
Proof.
  intros Hc w r.
  destruct (makeTypedEventController_fresh w0) as (Hout & Hnil & Hlt).
  rewrite Hout in Hc. injection Hc as <-.
  assert (_listeners (length (chans w0)) w = Ls) as Hw.
  { unfold w. rewrite addListeners_listeners by done. by rewrite Hnil. }
  pose proof (fire_run fuel (length (chans w0)) data w) as Hrun.
  fold r in Hrun.
  pose proof (loop_run_grows _ _ _ _ _ Hrun (length (chans w0))) as Hgrow.
  destruct (loop_run_calls _ _ _ _ _ Hrun) as [Hpre Hall].
  rewrite drop_0, Hgrow, Hw in Hpre, Hall.
  split_and!.
  - done.
  - intros Hn Hreg. rewrite Hall by done. by rewrite Hreg, app_nil_r.
  - intros Hq Hfuel. rewrite <- Hw in Hq, Hfuel.
    destruct (fire_quiet fuel _ data w Hq Hfuel) as (Ho & _ & Hcalls).
    by rewrite Hw in Hcalls.
Qed.

(** C2.  If the application of the listener at position [k] of a firing
    throws [e], it is the last application of that firing, [fire] throws
    that same [e], and the applications made are those of the first [k + 1]
    entries; [fire] throws nothing but what a listener threw; a firing that
    ends and in which no listener threw returned, having applied every
    entry of the array; a firing in which every application returned, with
    more fuel than applications, returned; and when every listener returns
    once the fuel reaches [n], leaving the arrays as they were, the firing
    returns as soon as the fuel exceeds their number by [n]. *)
Theorem fire_failure_truncation fuel c data w :
  let r := fire body fuel c data w in
  (forall k l inner e,
     events r !! k = Some (Invoked c l data inner (Raised e)) ->
     out r = Raised e /\
     length (events r) = S k /\
     _listeners c (final r) !! k = Some l /\
     calls (events r)
     = (fun l => (l, data)) <$> take (S k) (_listeners c (final r))) /\
  (forall e,
     out r = Raised e ->
     exists k l inner,
       events r !! k = Some (Invoked c l data inner (Raised e))) /\
  (out r <> OutOfFuel ->
   (forall l inner e, Invoked c l data inner (Raised e) ∉ events r) ->
   out r = Normal tt /\
   calls (events r) = (fun l => (l, data)) <$> _listeners c (final r)) /\
  (Forall (fun ev => exists l inner, ev = Invoked c l data inner (Normal tt))
          (events r) ->
   length (events r) < fuel ->
   out r = Normal tt /\
   calls (events r) = (fun l => (l, data)) <$> _listeners c (final r)) /\
  (forall n,
     Forall (returns_in body data n (chans w)) (_listeners c w) ->
     n + length (_listeners c w) < fuel ->
     out r = Normal tt /\
     calls (events r) = (fun l => (l, data)) <$> _listeners c w).
Proof.
  intros r. pose proof (fire_run fuel c data w) as Hrun. fold r in Hrun.
  destruct (loop_run_calls _ _ _ _ _ Hrun) as [Hpre Hall].
  rewrite drop_0 in Hpre, Hall.
  split_and!.
  - intros k l inner e Hk.
    destruct (loop_run_lookup _ _ _ _ _ _ _ Hrun Hk)
      as (l' & fuel' & wk & _ & Hlk & Heq & Hpost & _ & Hlast).
    cbn zeta in *. injection Heq as <- Hinner Ho.
    destruct Hlast as (Hout & Hfin & Hlen); [congruence|].
    split_and!; [congruence|done| |].
    + eapply prefix_lookup_Some; [|apply Hpost].
      eapply prefix_lookup_Some; [done|apply call_prefix].
    + rewrite fmap_take, <- Hlen.
      rewrite <- (calls_length_roots c data) by by eapply loop_run_roots.
      by apply prefix_take_length.
  - intros e He.
    destruct (loop_run_raised _ _ _ _ _ _ Hrun He) as (k & l & inner & ? & _).
    eauto.
  - intros Hfuel Hnone. destruct (out r) as [[]|e|] eqn:Ho.
    + split; [done|]. by apply Hall.
    + destruct (loop_run_raised _ _ _ _ _ _ Hrun Ho)
        as (k & l & inner & Hk & _).
      destruct (Hnone l inner e). by eapply list_elem_of_lookup_2.
    + done.
  - intros Hret Hlen. destruct (out r) as [[]|e|] eqn:Ho.
    + split; [done|]. by apply Hall.
    + destruct (loop_run_raised _ _ _ _ _ _ Hrun Ho)
        as (k & l & inner & Hk & _).
      apply list_elem_of_lookup_2 in Hk.
      rewrite Forall_forall in Hret.
      by destruct (Hret _ Hk) as (? & ? & ?).
    + destruct (fire_loop_out_of_fuel fuel c data 0 w Ho)
        as [(l & inner & Hlast)|Hfuel];
        [|change (fire_loop body fuel c data 0 w) with r in Hfuel; lia].
      change (fire_loop body fuel c data 0 w) with r in Hlast.
      apply last_Some_elem_of in Hlast.
      rewrite Forall_forall in Hret.
      by destruct (Hret _ Hlast) as (? & ? & ?).
  - intros n Hq Hfuel.
    destruct (fire_loop_returns fuel n c data 0 w Hq) as (Ho & _ & Hcalls);
      [lia|].
    by rewrite drop_0 in Hcalls.
Qed.

(** C6.  [makeTypedEventController] returns a new controller whose array is
    empty: the address it returns held no object before, holds the array
    [[]] afterwards, and a listener registered through it is the one entry
    of that array; and on a controller whose array is empty, [fire(d)]
    returns with any positive fuel, applies no listener and leaves the
    store as it was. *)
Theorem fire_empty_noop :
  (forall w,
     exists c,
       makeTypedEventController w
       = Result (Normal c) (World (chans w ++ [[]]) (ustate w)) [] /\
       chans w !! c = None /\
       chans (final (makeTypedEventController w)) !! c = Some [] /\
       _listeners c (final (makeTypedEventController w)) = [] /\
       forall l,
         _listeners c (final (addListener c l
                                (final (makeTypedEventController w))))
         = [l]) /\
  (forall fuel c data w,
     _listeners c w = [] ->
     fire body (S fuel) c data w = Result (Normal tt) w []).
Proof.
  split.
  - intros w. exists (length (chans w)).
    destruct (makeTypedEventController_fresh w) as (_ & Hnil & Hlt).
    split_and!.
    + done.
    + by apply lookup_ge_None.
    + cbn. rewrite lookup_app_r by lia. by rewrite Nat.sub_diag.
    + done.
    + intros l. rewrite addListener_listeners by done. by rewrite Hnil.
  - intros fuel c data w Hnil. unfold fire. cbn [fire_loop].
    by rewrite Hnil.
Qed.

(** C7.  On an existing controller, [addListener] and
    [addPassthroughListener] each append exactly one entry at the end of
    its array and leave every other array as it was; and after any method
    call on any controller, and after [makeTypedEventController], every
    array still starts with the entries it had, in the same order. *)
Theorem listeners_only_grow :
  (forall this l w,
     this < length (chans w) ->
     _listeners this (final (addListener this l w))
     = _listeners this w ++ [l] /\
     forall c, c <> this ->
       _listeners c (final (addListener this l w)) = _listeners c w) /\
  (forall this controller w,
     this < length (chans w) ->
     _listeners this (final (addPassthroughListener this controller w))
     = _listeners this w ++ [Bound controller] /\
     forall c, c <> this ->
       _listeners c (final (addPassthroughListener this controller w))
       = _listeners c w) /\
  (forall fuel this op w c,
     _listeners c w
       `prefix_of`
       _listeners c (final (TypedEventController_run body fuel this op w))) /\
  (forall w c,
     _listeners c w
       `prefix_of` _listeners c (final (makeTypedEventController w))).
Proof.
  split_and!.
  - intros this l w Hlt. split; [by apply addListener_listeners|].
    intros c Hne. by apply addListener_others.
  - intros this controller w Hlt.
    split; [by apply addListener_listeners|].
    intros c Hne. by apply addListener_others.
  - intros fuel this [[l|controller]|data] w c; cbn.
    + apply grows_prefix, grows_push.
    + apply grows_prefix, grows_push.
    + apply grows_prefix, grows_fire.
  - intros w c. apply grows_prefix, grows_makeTypedEventController.
Qed.

(** C10.  Whatever its outcome, [fire] leaves the array of its controller
    extended by exactly what was pushed on it during the applications of
    the listeners; when nothing was, the array after [fire] is the array
    before. *)
Theorem fire_frame fuel c data w :
  let r := fire body fuel c data w in
  Forall (fun ev => exists l inner o, ev = Invoked c l data inner o)
         (events r) /\
  _listeners c (final r) = _listeners c w ++ registered c (events r) /\
  (registered c (events r) = [] -> _listeners c (final r) = _listeners c w).
Proof.
  intros r. pose proof (fire_run fuel c data w) as Hrun. fold r in Hrun.
  pose proof (loop_run_grows _ _ _ _ _ Hrun c) as Hgrow.
  split_and!.
  - by eapply loop_run_roots.
  - done.
  - intros Hreg. by rewrite Hgrow, Hreg, app_nil_r.
Qed.

(** C9.  If, during a firing on [c], the application of [l] pushed [l'] on
    the array of [c], then [l'] sits in that array after the position of
    [l], and when the firing returns [l'] was applied to the same payload
    later in that firing. *)
Theorem reentrant_registration_live fuel c data w pre l inner o post l' :
  let r := fire body fuel c data w in
  events r = pre ++ Invoked c l data inner o :: post ->
  l' ∈ registered c inner ->
  l' ∈ drop (S (length pre)) (_listeners c (final r)) /\
  (out r = Normal tt -> (l', data) ∈ calls post).
Proof.
  intros r Hev Hreg.
  pose proof (fire_run fuel c data w) as Hrun. fold r in Hrun.
  assert (events r !! length pre = Some (Invoked c l data inner o)) as Hk.
  { rewrite Hev. by apply list_lookup_middle. }
  destruct (loop_run_lookup _ _ _ _ _ _ _ Hrun Hk)
    as (l0 & fuel' & wk & _ & Hlk & Heq & Hpost & _ & _).
  cbn zeta in *. injection Heq as <- Hinner Ho. cbn in Hlk.
  assert (l' ∈ drop (S (length pre)) (_listeners c (final r))) as Hin.
  { destruct (Hpost c) as [k2 ->].
    rewrite (grows_call (fire body fuel') l data) by apply grows_fire.
    apply lookup_lt_Some in Hlk.
    rewrite <- app_assoc, drop_app_le by lia.
    rewrite <- Hinner. rewrite !elem_of_app. auto. }
  split; [done|]. intros Hn.
  destruct (loop_run_calls _ _ _ _ _ Hrun) as [_ Hall].
  specialize (Hall Hn). rewrite drop_0 in Hall.
  pose proof (loop_run_roots _ _ _ _ _ Hrun) as Hroots.
  rewrite Hev in Hroots, Hall. apply Forall_app in Hroots as [Hroots _].
  rewrite calls_app, calls_Invoked in Hall.
  assert (calls post
          = (fun l => (l, data)) <$> drop (S (length pre))
                                         (_listeners c (final r))) as ->.
  { rewrite fmap_drop, <- Hall.
    rewrite <- (calls_length_roots c data pre) by done.
    rewrite (cons_middle (l, data)), app_assoc.
    rewrite drop_app_length'; [done|]. rewrite length_app. cbn. lia. }
  by apply (list_elem_of_fmap_2 (fun l => (l, data))).
Qed.

(** C3.  After [A.addPassthroughListener(B)] on an existing controller [A],
    with [LB] in the array of [B], a firing of [A] with [d] that returns
    first applies the entries [A] had before, in their order, each to [d],
    then applies the bound [fire] of [B] to [d], and during that
    application [LB] is applied to [d]; and when the other listeners of [A]
    and those of [B] only return, the firing does return as soon as the
    fuel exceeds their number by two. *)
Theorem passthrough_forwards fuel A B LB data w0 :
  A < length (chans w0) ->
  let w := final (addPassthroughListener A B w0) in
  LB ∈ _listeners B w ->
  let r := fire body fuel A data w in
  (out r = Normal tt ->
   (LB, data) ∈ applied (events r) /\
   exists pre inner post,
     events r = pre ++ Invoked A (Bound B) data inner (Normal tt) :: post /\
     calls pre = (fun l => (l, data)) <$> _listeners A w0 /\
     (LB, data) ∈ calls inner) /\
  (Forall (quiet body data) (_listeners A w0) ->
   Forall (quiet body data) (_listeners B w) ->
   length (_listeners A w0) + length (_listeners B w) + 2 < fuel ->
   out r = Normal tt).
Proof.
  intros HA w HLB r.
  assert (_listeners A w = _listeners A w0 ++ [Bound B]) as Hw
    by by apply addListener_listeners.
  split; [intros Hn|].
  2:{ intros HqA HqB Hfuel.
      destruct (fire_loop_returns fuel (S (length (_listeners B w)))
                  A data 0 w) as (Ho & _ & _); [| |done].
      - rewrite Hw. apply Forall_app. split.
        + eapply Forall_impl; [done|]. intros l Hl.
          eapply returns_in_le; [|by apply quiet_returns_in]. lia.
        + apply Forall_cons; split; [|constructor].
          by apply Bound_returns_in.
      - rewrite Hw, length_app. cbn. lia. }
  pose proof (fire_run fuel A data w) as Hrun. fold r in Hrun.
  destruct (loop_run_calls _ _ _ _ _ Hrun) as [_ Hall].
  specialize (Hall Hn). rewrite drop_0 in Hall.
  pose proof (loop_run_roots _ _ _ _ _ Hrun) as Hroots.
  pose proof (loop_run_prefix _ _ _ _ _ A Hrun) as [k2 Hfin].
  rewrite Hw in Hfin.
  set (k := length (_listeners A w0)).
  assert (k < length (events r)) as Hk.
  { rewrite <- (calls_length_roots A data) by done.
    rewrite Hall, length_fmap, Hfin, !length_app. cbn. lia. }
  destruct (lookup_lt_is_Some_2 _ _ Hk) as [ev Hev].
  destruct (loop_run_lookup _ _ _ _ _ _ _ Hrun Hev)
    as (l & fuel' & wk & Hpre & Hlk & -> & Hpost & _ & Hlast).
  cbn zeta in *. cbn in Hlk.
  assert (l = Bound B) as ->.
  { destruct (Hpre A) as [k3 Hwk]. rewrite Hwk, Hw in Hlk.
    rewrite <- app_assoc in Hlk. cbn [app] in Hlk.
    rewrite list_lookup_middle in Hlk by done.
    congruence. }
  assert (out (call body (fire body fuel') (Bound B) data wk) = Normal tt)
    as Ho.
  { destruct (out (call body (fire body fuel') (Bound B) data wk))
      as [[]|e|] eqn:Ho; [done| |];
      (destruct Hlast as (Hbad & _ & _); [done|congruence]). }
  rewrite Ho in Hev.
  assert ((LB, data)
          ∈ calls (events (call body (fire body fuel') (Bound B) data wk)))
    as HLBin.
  { cbn [call] in *.
    pose proof (fire_run fuel' B data wk) as HrunB.
    destruct (loop_run_calls _ _ _ _ _ HrunB) as [_ HallB].
    rewrite (HallB Ho), drop_0.
    apply (list_elem_of_fmap_2 (fun l => (l, data))).
    eapply elem_of_prefix; [|by eapply loop_run_prefix].
    eapply elem_of_prefix; [done|apply Hpre]. }
  split.
  { rewrite <- (take_drop_middle _ _ _ Hev), applied_app.
    apply elem_of_app. right.
    change (applied (?ev :: ?evs)) with (applications ev ++ applied evs).
    apply elem_of_app. left. cbn [applications]. right.
    by apply calls_applied. }
  exists (take k (events r)),
         (events (call body (fire body fuel') (Bound B) data wk)),
         (drop (S k) (events r)).
  split_and!.
  - symmetry. by apply take_drop_middle.
  - assert (length (take k (events r)) = k) as Hlen
      by (rewrite length_take; lia).
    assert (calls (take k (events r)) `prefix_of` calls (events r)) as Hp.
    { rewrite <- (take_drop k (events r)) at 2. rewrite calls_app.
      by apply prefix_app_r. }
    apply prefix_take_length in Hp.
    rewrite (calls_length_roots A data) in Hp
      by (by apply Forall_take).
    rewrite Hlen, Hall, <- fmap_take, Hfin in Hp.
    subst k. by rewrite <- app_assoc, take_app_length in Hp.
  - done.
Qed.

(** C8.  The interface [TypedEvent<T>] has the two registration methods and
    no other; any series of calls through handles of that type returns,
    applies no listener, records nothing but registrations and leaves the
    client state as it was; and no call through such a handle is a firing
    of a controller that has a listener. *)
Theorem subscribable_cannot_fire :
  (forall op : @TypedEvent_op fn,
     (exists l : listener, op = OpAddListener l) \/
     (exists controller, op = OpAddPassthroughListener controller)) /\
  (forall ops w,
     let r := TypedEvent_runs ops w in
     out r = Normal tt /\
     calls (events r) = [] /\
     Forall (fun ev => exists c l, ev = Registered c l) (events r) /\
     ustate (final r) = ustate w) /\
  (forall this op w fuel data l,
     _listeners this w !! 0 = Some l ->
     TypedEvent_run this op w <> fire body (S fuel) this data w).
Proof.
  assert (forall this op w,
            out (TypedEvent_run this op w) = Normal tt /\
            Forall (fun ev => exists c l, ev = Registered c l)
                   (events (TypedEvent_run this op w)) /\
            ustate (final (TypedEvent_run this op w)) = ustate w) as Hop.
  { intros this [l|controller] w; cbn;
      unfold addPassthroughListener, addListener, push;
      destruct (chans w !! this); cbn; split_and!;
      repeat constructor; eauto. }
  split_and!.
  - intros [l|controller]; eauto.
  - intros ops. induction ops as [|[this op] ops IH]; intros w r.
    + by split_and!.
    + subst r. cbn [TypedEvent_runs]. unfold bind.
      destruct (Hop this op w) as (Ho & Hev & Hu). rewrite Ho.
      cbn [out final events].
      destruct (IH (final (TypedEvent_run this op w)))
        as (Ho' & Hc' & Hev' & Hu').
      assert (Forall (fun ev => exists c l, ev = Registered c l)
                (events (TypedEvent_run this op w)
                 ++ events (TypedEvent_runs ops
                              (final (TypedEvent_run this op w))))) as Hall
        by by apply Forall_app.
      split_and!; [done| |done|congruence].
      clear -Hall. induction Hall as [|ev evs (c & l & ->) _ IHall]; [done|].
      by rewrite calls_Registered.
  - intros this op w fuel data l Hl Heq.
    apply (f_equal events) in Heq.
    destruct (Hop this op w) as (_ & Hev & _). rewrite Heq in Hev.
    unfold fire in Hev. cbn [fire_loop] in Hev. rewrite Hl in Hev.
    unfold bind, observe in Hev. cbn [out final events] in Hev.
    destruct (out (call body _ l data w)); cbn in Hev;
      apply Forall_cons in Hev as [(? & ? & ?) _]; done.
Qed.

Context `{!EqDecision fn}.

Lemma filter_calls_fresh (a : listener) data (ls : list listener) :
  a ∉ ls ->
  filter (fun x => x.1 = a) ((fun l => (l, data)) <$> ls) = [].
Proof.
  induction ls as [|l ls IH]; intros Hnotin; [done|].
  apply not_elem_of_cons in Hnotin as [Hne Hnotin].
  rewrite fmap_cons, filter_cons_False by (cbn; congruence). by apply IH.
Qed.

(** C5.  Two calls [addListener(a)] on an existing controller add two
    entries [a] at the end of its array; a firing with [d] that returns, and
    during which nothing was registered on the controller, applies the
    earlier entries and then [a] twice, each to [d], so exactly twice when
    [a] was not registered before; and for listeners that only return, the
    firing does return as soon as the fuel exceeds their number. *)
Theorem double_registration fuel c (a : listener) data w0 :
  c < length (chans w0) ->
  let w := final (addListener c a (final (addListener c a w0))) in
  let r := fire body fuel c data w in
  _listeners c w = _listeners c w0 ++ [a; a] /\
  (out r = Normal tt -> registered c (events r) = [] ->
   calls (events r)
   = ((fun l => (l, data)) <$> _listeners c w0) ++ [(a, data); (a, data)] /\
   (a ∉ _listeners c w0 ->
    filter (fun x => x.1 = a) (calls (events r)) = [(a, data); (a, data)])) /\
  (Forall (quiet body data) (_listeners c w0) -> quiet body data a ->
   length (_listeners c w0) + 2 < fuel ->
   out r = Normal tt /\
   calls (events r)
   = ((fun l => (l, data)) <$> _listeners c w0) ++ [(a, data); (a, data)]).
Proof.
  intros Hc w r.
  assert (_listeners c w = _listeners c w0 ++ [a; a]) as Hw.
  { unfold w. rewrite !addListener_listeners;
      [|by rewrite ?addListener_length..].
    by rewrite <- app_assoc. }
  pose proof (fire_run fuel c data w) as Hrun. fold r in Hrun.
  split_and!; [done| |].
  - intros Hn Hreg.
    destruct (loop_run_calls _ _ _ _ _ Hrun) as [_ Hall].
    rewrite (Hall Hn), drop_0.
    rewrite (loop_run_grows _ _ _ _ _ Hrun c), Hreg, app_nil_r, Hw.
    rewrite fmap_app. split; [done|]. intros Hfresh.
    rewrite filter_app, filter_calls_fresh by done. rewrite app_nil_l.
    rewrite !fmap_cons, fmap_nil.
    by rewrite !filter_cons_True, filter_nil by done.
  - intros Hq Ha Hfuel.
    destruct (fire_quiet fuel c data w) as (Ho & _ & Hcalls).
    + rewrite Hw. apply Forall_app. split; [done|].
      do 2 (apply Forall_cons; split; [done|]). constructor.
    + rewrite Hw, length_app. cbn. lia.
    + fold r in Ho, Hcalls. by rewrite Hcalls, Hw, fmap_app.
Qed.

End Properties.

(** ** [addPassthroughListener] is [addListener] of a forwarding listener *)

Section PassthroughProperties.

Context {T E U fn : Type} (body : fn -> T -> @prog T E U fn).
Context (f : fn) (target : chan).

Implicit Types (w : @world U fn) (l : @listener fn) (data : T).

Local Abbreviation M := (@M T E U fn).
Local Abbreviation sim_listener := (sim_listener f target).
Local Abbreviation sim_world := (@sim_world U fn f target).
Local Abbreviation sim_result := (@sim_result T E U fn f target).
Local Abbreviation sim := (@sim T E U fn f target).

(** Splitting a goal [sim_result r1 r2] into its three parts. *)
Local Ltac split3 := split; [|split].

Lemma sim_listeners c w1 w2 :
  sim_world w1 w2 ->
  Forall2 sim_listener (_listeners c w1) (_listeners c w2).
Proof.
  intros [Hch _]. unfold _listeners.
  destruct (Forall2_lookup (Forall2 sim_listener) (chans w1) (chans w2))
    as [Hlook _].
  generalize (Hlook Hch c).
  destruct (chans w1 !! c) as [ls1|], (chans w2 !! c) as [ls2|];
    inversion 1 as [? ? Hls|]; subst; cbn; [done|constructor].
Qed.

Lemma sim_ret {A} (a : A) : sim (ret a) (ret a).
Proof. intros w1 w2 Hw. by split3. Qed.

Lemma sim_raise {A} e : sim (raise e : M A) (raise e).
Proof. intros w1 w2 Hw. by split3. Qed.

Lemma sim_out_of_fuel {A} : sim (out_of_fuel : M A) out_of_fuel.
Proof. intros w1 w2 Hw. by split3. Qed.

Lemma sim_bind {A B} (m1 m2 : M A) (k1 k2 : A -> M B) :
  sim m1 m2 -> (forall a, sim (k1 a) (k2 a)) -> sim (bind m1 k1) (bind m2 k2).
Proof.
  intros Hm Hk w1 w2 Hw. destruct (Hm w1 w2 Hw) as (Ho & Hf & Hev).
  unfold bind. rewrite <- Ho.
  destruct (out (m1 w1)) as [a| |]; cbn [out final events];
    [|by split3..].
  destruct (Hk a _ _ Hf) as (Ho' & Hf' & Hev').
  split3; [done..|]. by apply Forall2_app.
Qed.

Lemma sim_catch (m1 m2 : M unit) h1 h2 :
  sim m1 m2 -> (forall e, sim (h1 e) (h2 e)) -> sim (catch m1 h1) (catch m2 h2).
Proof.
  intros Hm Hh w1 w2 Hw. destruct (Hm w1 w2 Hw) as (Ho & Hf & Hev).
  unfold catch. rewrite <- Ho.
  destruct (out (m1 w1)) as [a|e|] eqn:Ho1; cbn [out final events];
    [split3; [congruence|done..]| |split3; [congruence|done..]].
  destruct (Hh e _ _ Hf) as (Ho' & Hf' & Hev').
  split3; [done..|]. by apply Forall2_app.
Qed.

Lemma sim_observe c l1 l2 data (m1 m2 : M unit) :
  sim_listener l1 l2 -> sim m1 m2 ->
  sim (observe c l1 data m1) (observe c l2 data m2).
Proof.
  intros Hl Hm w1 w2 Hw. destruct (Hm w1 w2 Hw) as (Ho & Hf & Hev).
  unfold observe. split3; cbn [out final events]; [done..|].
  rewrite <- Ho. repeat constructor; done.
Qed.

Lemma sim_push c l1 l2 :
  sim_listener l1 l2 -> sim (push c l1 : M unit) (push c l2).
Proof.
  intros Hl w1 w2 Hw. pose proof Hw as [Hch Hu]. unfold push.
  destruct (Forall2_lookup (Forall2 sim_listener) (chans w1) (chans w2))
    as [Hlook _].
  generalize (Hlook Hch c).
  destruct (chans w1 !! c) as [ls1|], (chans w2 !! c) as [ls2|];
    inversion 1 as [? ? Hls|]; subst; cbn [out final events];
    [|by split3].
  split3; [done| |by repeat constructor].
  split; cbn; [|done]. apply Forall2_insert; [done|].
  apply Forall2_app; [done|]. by repeat constructor.
Qed.

Lemma sim_makeTypedEventController :
  sim (makeTypedEventController : M chan) makeTypedEventController.
Proof.
  intros w1 w2 [Hch Hu]. unfold makeTypedEventController.
  split3; cbn [out final events].
  - by rewrite (Forall2_length _ _ _ Hch).
  - split; cbn; [|done]. apply Forall2_app; [done|]. by repeat constructor.
  - constructor.
Qed.

Lemma sim_exec (fire1 fire2 : chan -> T -> M unit) p :
  (forall c d, sim (fire1 c d) (fire2 c d)) ->
  sim (exec fire1 p) (exec fire2 p).
Proof.
  intros Hfire.
  induction p as [|e|k IH|u k IH|c l k IH|c c2 k IH|c d k IH
                 |k IH|p IHp h IHh k IHk]; cbn [exec].
  - apply sim_ret.
  - apply sim_raise.
  - intros w1 w2 Hw. destruct Hw as [Hch Hu] eqn:HW. rewrite <- Hu.
    by apply IH.
  - intros w1 w2 [Hch Hu]. by apply IH.
  - apply sim_bind; [apply sim_push; constructor|done].
  - apply sim_bind; [apply sim_push; constructor|done].
  - apply sim_bind; [apply Hfire|done].
  - apply sim_bind; [apply sim_makeTypedEventController|done].
  - apply sim_bind; [|done]. by apply sim_catch.
Qed.

(** The bound method and the forwarding function do the same when
    applied. *)
Lemma sim_call (fire1 fire2 : chan -> T -> M unit) l1 l2 data :
  (forall d, body f d = forwarder target d) ->
  (forall c d, sim (fire1 c d) (fire2 c d)) ->
  sim_listener l1 l2 ->
  sim (call body fire1 l1 data) (call body fire2 l2 data).
Proof.
  intros Hbody Hfire [l|].
  - destruct l; cbn [call]; [by apply sim_exec|apply Hfire].
  - cbn [call]. rewrite Hbody. unfold forwarder. cbn [exec].
    intros w1 w2 Hw. destruct (Hfire target data w1 w2 Hw) as (Ho & Hf & Hev).
    unfold bind, ret. rewrite <- Ho.
    destruct (out (fire1 target data w1)) as [[]| |] eqn:Ho1;
      cbn [out final events]; rewrite ?app_nil_r; by split3.
Qed.

Lemma sim_fire_loop fuel c data i :
  (forall d, body f d = forwarder target d) ->
  sim (fire_loop body fuel c data i) (fire_loop body fuel c data i).
Proof.
  intros Hbody. revert c data i.
  induction fuel as [|fuel IH]; intros c data i; cbn [fire_loop].
  - apply sim_out_of_fuel.
  - intros w1 w2 Hw.
    destruct (Forall2_lookup sim_listener (_listeners c w1) (_listeners c w2))
      as [Hlook _].
    generalize (Hlook (sim_listeners c w1 w2 Hw) i).
    destruct (_listeners c w1 !! i) as [l1|], (_listeners c w2 !! i) as [l2|];
      inversion 1 as [? ? Hl|]; subst.
    + apply sim_bind; [|done..].
      apply sim_observe; [done|]. apply sim_call; [done| |done].
      intros c' d. apply IH.
    + by apply sim_ret.
Qed.

(** C4.  [addPassthroughListener(target)] is [addListener] of the bound
    [fire] of [target], which applied to [d] does [target.fire(d)]; it
    changes nothing in the store but the array of its controller, to which
    it appends that one entry.  Let [f] be a client function whose body,
    given [d], calls [target.fire(d)]: [addPassthroughListener(target)] and
    [addListener(f)] return the same way and leave stores that differ only
    in how that entry is written; and from stores that differ only so,
    every firing has the same outcome and leaves stores and histories that
    again differ only so. *)
Theorem addPassthroughListener_sugar :
  (forall d, body f d = forwarder target d) ->
  (forall this w,
     (addPassthroughListener this target w : @result T E U fn unit)
     = addListener this (Bound target) w) /\
  (forall (fire_ : chan -> T -> M unit) data w,
     call body fire_ (Bound target) data w = fire_ target data w) /\
  (forall this w ls,
     chans w !! this = Some ls ->
     (addPassthroughListener this target w : @result T E U fn unit)
     = Result (Normal tt)
              (World (<[this := ls ++ [Bound target]]> (chans w)) (ustate w))
              [Registered this (Bound target)]) /\
  (forall this w,
     sim_result (addPassthroughListener this target w)
                (addPassthroughListener_spec f this w)) /\
  (forall fuel c data w1 w2,
     sim_world w1 w2 ->
     sim_result (fire body fuel c data w1) (fire body fuel c data w2)).
Proof.
  intros Hbody. split_and!.
  - done.
  - done.
  - intros this w ls Hls.
    unfold addPassthroughListener, addListener, push. by rewrite Hls.
  - intros this w. apply sim_push; [constructor|].
    split; [|done]. apply Forall_Forall2_diag, Forall_forall. intros ls _.
    apply Forall_Forall2_diag, Forall_forall. intros l _. constructor.
  - intros fuel c data w1 w2 Hw. by apply sim_fire_loop.
Qed.

End PassthroughProperties.

(** ** The theorems at work on the example client *)

(** Scenario 1 of the specification: listeners [a; b; c], payload 42. *)
Lemma fire_registration_order_witness :
  out (@makeTypedEventController nat string _ _ Example.start) = Normal 0 /\
  let Ls := [Closure Example.a; Closure Example.b; Closure Example.c] in
  let w := final (@addListeners nat string _ _ 0 Ls
                    (final (@makeTypedEventController nat string _ _ Example.start))) in
  let r := fire Example.body 10 0 42 w in
  out r = Normal tt /\
  registered 0 (events r) = [] /\
  calls (events r)
  = [(Closure Example.a, 42); (Closure Example.b, 42);
     (Closure Example.c, 42)].
Proof.
  split; [reflexivity|]. intros Ls w r.
  split; [reflexivity|]. split; [reflexivity|].
  destruct (fire_registration_order Example.body Ls 42 Example.start 10 0
              eq_refl) as (_ & H & _).
  apply H; reflexivity.
Defined.

(** Scenario 3 of the specification: [failing] throws, [c] never runs. *)
Lemma fire_failure_truncation_witness :
  let w := Example.one [Closure Example.a; Closure Example.failing;
                        Closure Example.c] in
  let r := fire Example.body 10 0 42 w in
  events r !! 1 = Some (Invoked 0 (Closure Example.failing) 42 []
                          (Raised "boom")) /\
  out r = Raised "boom" /\
  length (events r) = 2 /\
  calls (events r) = [(Closure Example.a, 42); (Closure Example.failing, 42)].
Proof.
  intros w r. split; [reflexivity|].
  destruct (fire_failure_truncation Example.body 10 0 42 w) as (H & _).
  destruct (H 1 (Closure Example.failing) [] "boom" eq_refl)
    as (Ho & Hlen & _ & Hcalls).
  split; [exact Ho|]. split; [exact Hlen|exact Hcalls].
Defined.

(** Scenario 4 of the specification: a passthrough from [A = 0] to
    [B = 1]. *)
Lemma passthrough_forwards_witness :
  let w0 := Example.two [Closure Example.a] [Closure Example.b] in
  let w := final (@addPassthroughListener nat string _ _ 0 1 w0) in
  let r := fire Example.body 10 0 42 w in
  0 < length (chans w0) /\
  Closure Example.b ∈ _listeners 1 w /\
  out r = Normal tt /\
  (Closure Example.b, 42) ∈ applied (events r) /\
  exists pre inner post,
    events r = pre ++ Invoked 0 (Bound 1) 42 inner (Normal tt) :: post /\
    calls pre = [(Closure Example.a, 42)] /\
    (Closure Example.b, 42) ∈ calls inner.
Proof.
  intros w0 w r.
  assert (0 < length (chans w0)) as H0 by (cbn; lia).
  assert (Closure Example.b ∈ _listeners 1 w) as H1 by (cbn; left).
  split; [exact H0|]. split; [exact H1|]. split; [reflexivity|].
  destruct (passthrough_forwards Example.body 10 0 1 (Closure Example.b) 42
              w0 H0 H1) as (H & _).
  exact (H eq_refl).
Defined.

(** The client function [relay] forwards to controller 1. *)
Lemma addPassthroughListener_sugar_witness :
  (forall d, Example.body Example.relay d = forwarder 1 d) /\
  sim_result Example.relay 1
    (@addPassthroughListener nat string _ _ 0 1 (Example.one []))
    (addPassthroughListener_spec Example.relay 0 (Example.one [])) /\
  sim_result Example.relay 1
    (fire Example.body 10 0 42 (Example.two [Bound 1] [Closure Example.b]))
    (fire Example.body 10 0 42
       (Example.two [Closure Example.relay] [Closure Example.b])).
Proof.
  assert (forall d, Example.body Example.relay d = forwarder 1 d) as Hbody
    by (intros d; reflexivity).
  destruct (addPassthroughListener_sugar Example.body Example.relay 1 Hbody)
    as (_ & _ & _ & Hadd & Hfire).
  split; [exact Hbody|]. split; [apply Hadd|]. apply Hfire.
  split; [|reflexivity]. cbn.
  repeat constructor.
Defined.

(** Scenario 2 of the specification: [a] registered twice. *)
Lemma double_registration_witness :
  let w0 := Example.one [] in
  let w := final (@addListener nat string _ _ 0 (Closure Example.a)
                    (final (@addListener nat string _ _ 0 (Closure Example.a) w0))) in
  let r := fire Example.body 10 0 42 w in
  0 < length (chans w0) /\
  out r = Normal tt /\
  filter (fun x => x.1 = Closure Example.a) (calls (events r))
  = [(Closure Example.a, 42); (Closure Example.a, 42)].
Proof.
  intros w0 w r.
  assert (0 < length (chans w0)) as H0 by (cbn; lia).
  split; [exact H0|]. split; [reflexivity|].
  destruct (double_registration Example.body 10 0 (Closure Example.a) 42 w0
              H0) as (_ & H & _).
  destruct (H eq_refl eq_refl) as (_ & Hfilter).
  apply Hfilter. cbn. apply not_elem_of_nil.
Defined.

(** Scenario 5 of the specification: a new controller fired at once. *)
Lemma fire_empty_noop_witness :
  _listeners 0 (Example.one []) = [] /\
  fire Example.body 1 0 42 (Example.one [])
  = Result (Normal tt) (Example.one []) [].
Proof.
  split; [reflexivity|].
  destruct (fire_empty_noop Example.body) as (_ & H).
  apply H. reflexivity.
Defined.

Lemma listeners_only_grow_witness :
  let w := Example.one [Closure Example.a] in
  0 < length (chans w) /\
  _listeners 0 (final (@addListener nat string _ _ 0 (Closure Example.b) w))
  = [Closure Example.a; Closure Example.b].
Proof.
  intros w. assert (0 < length (chans w)) as H0 by (cbn; lia).
  split; [exact H0|].
  destruct (listeners_only_grow Example.body) as (H & _).
  destruct (H 0 (Closure Example.b) w H0) as (Hthis & _). exact Hthis.
Defined.

Lemma subscribable_cannot_fire_witness :
  let w := Example.one [Closure Example.a] in
  _listeners 0 w !! 0 = Some (Closure Example.a) /\
  @TypedEvent_run nat string _ _ 0 (OpAddListener (Closure Example.b)) w
  <> fire Example.body 1 0 42 w.
Proof.
  intros w. split; [reflexivity|].
  destruct (subscribable_cannot_fire Example.body) as (_ & _ & H).
  apply (H 0 (OpAddListener (Closure Example.b)) w 0 42 (Closure Example.a)).
  reflexivity.
Defined.

(** [subscriber] registers [b] on the controller being fired. *)
Lemma reentrant_registration_live_witness :
  let w := Example.one [Closure Example.subscriber; Closure Example.a] in
  let r := fire Example.body 10 0 42 w in
  let inner : list (@event nat string Example.name) :=
    [Registered 0 (Closure Example.b)] in
  let post := [Invoked 0 (Closure Example.a) 42 [] (Normal tt);
               Invoked 0 (Closure Example.b) 42 [] (Normal tt)] in
  events r
  = [] ++ Invoked 0 (Closure Example.subscriber) 42 inner (Normal tt)
            :: post /\
  Closure Example.b ∈ registered 0 inner /\
  out r = Normal tt /\
  (Closure Example.b, 42) ∈ calls post.
Proof.
  intros w r inner post.
  assert (Closure Example.b ∈ registered 0 inner) as Hreg by (cbn; left).
  split; [reflexivity|]. split; [exact Hreg|]. split; [reflexivity|].
  destruct (reentrant_registration_live Example.body 10 0 42 w []
              (Closure Example.subscriber) inner (Normal tt) post
              (Closure Example.b) eq_refl Hreg) as (_ & H).
  apply H. reflexivity.
Defined.

Lemma fire_frame_witness :
  let w := Example.one [Closure Example.a; Closure Example.failing] in
  let r := fire Example.body 10 0 42 w in
  registered 0 (events r) = [] /\
  out r = Raised "boom" /\
  _listeners 0 (final r) = [Closure Example.a; Closure Example.failing].
Proof.
  intros w r. split; [reflexivity|]. split; [reflexivity|].
  destruct (fire_frame Example.body 10 0 42 w) as (_ & _ & H).
  apply H. reflexivity.
Defined.

(** ** Where a listener that throws or registers changes the picture *)

(** Membership in an explicit list of applications. *)
Local Ltac not_in_list :=
  let H := fresh in
  intros H; repeat (apply elem_of_cons in H as [H|H]; [discriminate|]);
  by apply elem_of_nil in H.

(** A run that ended with fuel 10 is the run with any larger fuel. *)
Local Ltac any_more_fuel :=
  let fuel := fresh "fuel" in
  let Hfuel := fresh in
  intros fuel Hfuel; apply fire_more_fuel; [done|vm_compute; discriminate].

(** With [failing] registered before [a], [a] is never applied; with
    [subscriber] registered alone, [b] is applied as well. *)
Lemma fire_registration_order_counterexample :
  let fresh := @makeTypedEventController nat string _ _ Example.start in
  (let Ls := [Closure Example.failing; Closure Example.a] in
   let w := final (@addListeners nat string _ _ 0 Ls (final fresh)) in
   let r := fire Example.body 10 0 42 w in
   out fresh = Normal 0 /\
   (forall fuel, 10 <= fuel -> fire Example.body fuel 0 42 w = r) /\
   out r = Raised "boom" /\
   calls (events r) = [(Closure Example.failing, 42)] /\
   calls (events r) <> (fun l => (l, 42)) <$> Ls) /\
  (let Ls := [Closure Example.subscriber] in
   let w := final (@addListeners nat string _ _ 0 Ls (final fresh)) in
   let r := fire Example.body 10 0 42 w in
   (forall fuel, 10 <= fuel -> fire Example.body fuel 0 42 w = r) /\
   out r = Normal tt /\
   calls (events r)
   = [(Closure Example.subscriber, 42); (Closure Example.b, 42)] /\
   calls (events r) <> (fun l => (l, 42)) <$> Ls).
Proof. intros; split; intros; split_and!; first [done|any_more_fuel]. Qed.

(** With [failing] registered on [A = 0] before the passthrough to
    [B = 1], the listener [b] of [B] is never applied. *)
Lemma passthrough_forwards_counterexample :
  let w0 := Example.two [Closure Example.failing] [Closure Example.b] in
  let w := final (@addPassthroughListener nat string _ _ 0 1 w0) in
  let r := fire Example.body 10 0 42 w in
  _listeners 0 w = [Closure Example.failing; Bound 1] /\
  Closure Example.b ∈ _listeners 1 w /\
  (forall fuel, 10 <= fuel -> fire Example.body fuel 0 42 w = r) /\
  r = Result (Raised "boom") w
        [Invoked 0 (Closure Example.failing) 42 [] (Raised "boom")] /\
  (Closure Example.b, 42) ∉ applied (events r).
Proof.
  intros. split_and!; [done|cbn; left|any_more_fuel|done|cbn; not_in_list].
Qed.

(** Registered twice, [failing] is applied once; registered twice on a
    controller that had it already, [a] is applied three times. *)
Lemma double_registration_counterexample :
  (let w0 := Example.one [] in
   let w := final (@addListener nat string _ _ 0 (Closure Example.failing)
                     (final (@addListener nat string _ _ 0
                               (Closure Example.failing) w0))) in
   let r := fire Example.body 10 0 42 w in
   _listeners 0 w = [Closure Example.failing; Closure Example.failing] /\
   (forall fuel, 10 <= fuel -> fire Example.body fuel 0 42 w = r) /\
   out r = Raised "boom" /\
   calls (events r) = [(Closure Example.failing, 42)] /\
   filter (fun x => x.1 = Closure Example.failing) (calls (events r))
   <> [(Closure Example.failing, 42); (Closure Example.failing, 42)]) /\
  (let w0 := Example.one [Closure Example.a] in
   let w := final (@addListener nat string _ _ 0 (Closure Example.a)
                     (final (@addListener nat string _ _ 0
                               (Closure Example.a) w0))) in
   let r := fire Example.body 10 0 42 w in
   (forall fuel, 10 <= fuel -> fire Example.body fuel 0 42 w = r) /\
   out r = Normal tt /\
   calls (events r)
   = [(Closure Example.a, 42); (Closure Example.a, 42);
      (Closure Example.a, 42)] /\
   filter (fun x => x.1 = Closure Example.a) (calls (events r))
   <> [(Closure Example.a, 42); (Closure Example.a, 42)]).
Proof. intros; split; intros; split_and!; first [done|any_more_fuel]. Qed.

(** [subscriber] registers [b] on the controller being fired, the next
    listener throws, and [b] is never applied. *)
Lemma reentrant_registration_live_counterexample :
  let w := Example.one [Closure Example.subscriber; Closure Example.failing] in
  let r := fire Example.body 10 0 42 w in
  (forall fuel, 10 <= fuel -> fire Example.body fuel 0 42 w = r) /\
  events r
  = [Invoked 0 (Closure Example.subscriber) 42
       [Registered 0 (Closure Example.b)] (Normal tt);
     Invoked 0 (Closure Example.failing) 42 [] (Raised "boom")] /\
  _listeners 0 (final r)
  = [Closure Example.subscriber; Closure Example.failing; Closure Example.b] /\
  out r = Raised "boom" /\
  (Closure Example.b, 42) ∉ applied (events r).
Proof.
  intros. split_and!; [any_more_fuel|done..|cbn; not_in_list].
Qed.

(** [grow] registers itself each time it is applied: no application
    throws, each one returns, and the loop of [fire] never reaches the end
    of the array, whatever the fuel. *)
Lemma fire_failure_truncation_counterexample :
  _listeners 0 (Grower.store 1) = [Closure tt] /\
  forall fuel,
    let r := fire Grower.body fuel 0 42 (Grower.store 1) in
    out r = OutOfFuel /\
    out r <> Normal tt /\
    (forall l inner e, Invoked 0 l 42 inner (Raised e) ∉ events r) /\
    Forall (fun ev => exists l inner, ev = Invoked 0 l 42 inner (Normal tt))
           (events r) /\
    length (events r) = fuel.
Proof.
  split; [reflexivity|].
  assert (forall fuel i n,
            i < n ->
            let r := fire_loop Grower.body fuel 0 42 i (Grower.store n) in
            out r = OutOfFuel /\
            Forall (fun ev => exists l inner,
                      ev = Invoked 0 l 42 inner (Normal tt)) (events r) /\
            length (events r) = fuel) as Hloop.
  { assert (forall fuel i n,
              i < n ->
              fire_loop Grower.body (S fuel) 0 42 i (Grower.store n)
              = let rest := fire_loop Grower.body fuel 0 42 (S i)
                              (Grower.store (S n)) in
                Result (out rest) (final rest)
                  (Invoked 0 (Closure tt) 42 [Registered 0 (Closure tt)]
                     (Normal tt) :: events rest)) as Hstep.
    { intros fuel i n Hi. cbn [fire_loop].
      change (_listeners 0 (Grower.store n))
        with (replicate n (Closure tt : @listener unit)).
      rewrite lookup_replicate_2 by done.
      unfold bind, observe, Grower.store. cbn.
      by rewrite <- replicate_S_end. }
    induction fuel as [|fuel IH]; intros i n Hi; [by split_and!|].
    rewrite Hstep by done. cbn zeta.
    destruct (IH (S i) (S n)) as (Ho & Hev & Hlen); [lia|].
    cbn zeta in Ho, Hev, Hlen.
    split_and!; cbn [out events].
    - done.
    - apply Forall_cons. split; [by eauto|done].
    - cbn [length]. by rewrite Hlen. }
  intros fuel r. destruct (Hloop fuel 0 1) as (Ho & Hev & Hlen); [lia|].
  change (fire_loop Grower.body fuel 0 42 0 (Grower.store 1)) with r
    in Ho, Hev, Hlen.
  split_and!; [done|rewrite Ho; discriminate| |done..].
  intros l inner e Hin. rewrite Forall_forall in Hev.
  by destruct (Hev _ Hin) as (? & ? & ?).
Qed.

(** * More of the dispatch *)

Section Dispatch.

Context {T E U fn : Type} (body : fn -> T -> @prog T E U fn).

Implicit Types (w : @world U fn) (l : @listener fn) (data : T).
Implicit Types (evs : list (@event T E fn)) (e : E).

Lemma applied_elem evs (ev : @event T E fn) x :
  ev ∈ evs -> x ∈ applications ev -> x ∈ applied evs.
Proof.
  intros (evs1 & evs2 & ->)%list_elem_of_split Hx.
  rewrite applied_app. apply elem_of_app. right.
  change (applied (ev :: evs2)) with (applications ev ++ applied evs2).
  apply elem_of_app. by left.
Qed.

(** In a firing that returned, each entry of the array has its
    application, at the same position, and that application returned. *)
Lemma fire_root fuel c data w k l :
  out (fire body fuel c data w) = Normal tt ->
  _listeners c (final (fire body fuel c data w)) !! k = Some l ->
  exists fuel' wk,
    (forall c', _listeners c' w `prefix_of` _listeners c' wk) /\
    out (call body (fire body fuel') l data wk) = Normal tt /\
    events (fire body fuel c data w) !! k
    = Some (Invoked c l data
              (events (call body (fire body fuel') l data wk)) (Normal tt)).
Proof.
  intros Hn Hl. pose proof (fire_run body fuel c data w) as Hrun.
  destruct (loop_run_calls _ _ _ _ _ _ Hrun) as [_ Hall].
  specialize (Hall Hn). rewrite drop_0 in Hall.
  pose proof (loop_run_roots _ _ _ _ _ _ Hrun) as Hroots.
  assert (k < length (events (fire body fuel c data w))) as Hk.
  { rewrite <- (calls_length_roots c data) by done.
    rewrite Hall, length_fmap. by eapply lookup_lt_Some. }
  destruct (lookup_lt_is_Some_2 _ _ Hk) as [ev Hev].
  destruct (loop_run_lookup _ _ _ _ _ _ _ _ Hrun Hev)
    as (l0 & fuel' & wk & Hpre & Hlk & -> & Hpost & _ & Hlast).
  cbn zeta in *. cbn in Hlk.
  assert (l0 = l) as ->.
  { assert (_listeners c (final (fire body fuel c data w)) !! k = Some l0)
      as Hl0; [|congruence].
    eapply prefix_lookup_Some; [|apply Hpost].
    eapply prefix_lookup_Some; [done|apply call_prefix]. }
  assert (out (call body (fire body fuel') l data wk) = Normal tt) as Ho.
  { destruct (out (call body (fire body fuel') l data wk)) as [[]|e|] eqn:Ho;
      [done| |]; (destruct Hlast as (Hbad & _ & _); [done|congruence]). }
  exists fuel', wk. split_and!; [done..|]. by rewrite <- Ho.
Qed.

(** In a firing that returned, every listener the array had at the start
    was applied to the payload. *)
Lemma fire_applies_all fuel c data w l :
  out (fire body fuel c data w) = Normal tt ->
  l ∈ _listeners c w ->
  (l, data) ∈ calls (events (fire body fuel c data w)).
Proof.
  intros Hn Hl. pose proof (fire_run body fuel c data w) as Hrun.
  destruct (loop_run_calls _ _ _ _ _ _ Hrun) as [_ Hall].
  rewrite (Hall Hn), drop_0.
  apply (list_elem_of_fmap_2 (fun l => (l, data))).
  eapply elem_of_prefix; [done|by eapply loop_run_prefix].
Qed.

(** X1.  Passthroughs compose: when following passthrough entries leads
    from [A] to [B], a firing of [A] with [d] that returns has applied
    every listener of [B] to [d]. *)
Theorem passthrough_chain_forwards fuel A B LB data w :
  forwards w A B ->
  LB ∈ _listeners B w ->
  out (fire body fuel A data w) = Normal tt ->
  (LB, data) ∈ applied (events (fire body fuel A data w)).
Proof.
  intros Hpath HLB.
  enough (forall fuel w',
            (forall c, _listeners c w `prefix_of` _listeners c w') ->
            out (fire body fuel A data w') = Normal tt ->
            (LB, data) ∈ applied (events (fire body fuel A data w'))) as Hgen
    by (apply Hgen; done).
  clear fuel. induction Hpath as [A|A B C HAB _ IH]; intros fuel w' Hw' Hn.
  - apply calls_applied, fire_applies_all; [done|].
    eapply elem_of_prefix; [done|apply Hw'].
  - assert (Bound B ∈ _listeners A (final (fire body fuel A data w'))) as Hin.
    { eapply elem_of_prefix; [|apply grows_prefix, grows_fire].
      eapply elem_of_prefix; [done|apply Hw']. }
    apply list_elem_of_lookup_1 in Hin as [k Hk].
    destruct (fire_root fuel A data w' k (Bound B) Hn Hk)
      as (fuel' & wk & Hwk & Ho & Hev).
    cbn [call] in Ho, Hev.
    eapply applied_elem; [by eapply list_elem_of_lookup_2|].
    cbn [applications]. right.
    apply (IH HLB fuel' wk); [|done].
    intros c. etrans; [apply Hw'|apply Hwk].
Qed.

(** X2.  A passthrough cycle never returns: in a set of controllers each of
    which has a passthrough entry to a member of the set, no firing of a
    member returns, whatever the fuel. *)
Theorem passthrough_cycle_never_returns (P : chan -> Prop) fuel c data w :
  (forall a, P a -> exists b, P b /\ Bound b ∈ _listeners a w) ->
  P c ->
  out (fire body fuel c data w) <> Normal tt.
Proof.
  intros Hclosed Hc.
  enough (forall fuel a i w' k b,
            (forall x, _listeners x w `prefix_of` _listeners x w') ->
            P b -> _listeners a w' !! k = Some (Bound b) -> i <= k ->
            out (fire_loop body fuel a data i w') <> Normal tt) as Hgen.
  { destruct (Hclosed c Hc) as (b & Hb & [k Hk]%list_elem_of_lookup_1).
    apply (Hgen fuel c 0 w k b); [done..|lia]. }
  clear fuel c Hc. induction fuel as [|fuel IH];
    intros a i w' k b Hw' Hb Hk Hik; [done|].
  cbn [fire_loop]. destruct (_listeners a w' !! i) as [l|] eqn:Hi.
  2:{ apply lookup_ge_None in Hi. apply lookup_lt_Some in Hk. lia. }
  unfold bind, observe. cbn [out final events].
  change (fun c0 d => fire_loop body fuel c0 d 0) with (fire body fuel).
  destruct (out (call body (fire body fuel) l data w')) as [[]|e|] eqn:Ho;
    cbn [out]; [|done..].
  destruct (decide (i = k)) as [->|Hne].
  - assert (l = Bound b) as -> by congruence. cbn [call] in Ho.
    destruct (Hclosed b Hb) as (b' & Hb' & Hin).
    assert (Bound b' ∈ _listeners b w') as [k' Hk']%list_elem_of_lookup_1
      by (eapply elem_of_prefix; [done|apply Hw']).
    by destruct (IH b 0 w' k' b' Hw' Hb' Hk' ltac:(lia)).
  - apply (IH a (S i) _ k b); [|done| |lia].
    + intros x. etrans; [apply Hw'|apply call_prefix].
    + eapply prefix_lookup_Some; [done|apply call_prefix].
Qed.

(** X3.  Errors cross passthroughs unchanged: if, in the firing of [B] made
    by a passthrough entry of [A], a listener of [B] throws [e], then that
    firing of [B] and the firing of [A] both stop there and the firing of
    [A] throws that same [e]. *)
Theorem passthrough_error_propagates
        fuel A B data w k inner o j l inner' e :
  events (fire body fuel A data w) !! k
  = Some (Invoked A (Bound B) data inner o) ->
  inner !! j = Some (Invoked B l data inner' (Raised e)) ->
  out (fire body fuel A data w) = Raised e /\
  o = Raised e /\
  length (events (fire body fuel A data w)) = S k /\
  length inner = S j.
Proof.
  intros Hk Hj. pose proof (fire_run body fuel A data w) as Hrun.
  destruct (loop_run_lookup _ _ _ _ _ _ _ _ Hrun Hk)
    as (l0 & fuel' & wk & _ & _ & Heq & _ & _ & Hlast).
  cbn zeta in *. injection Heq as <- -> ->. cbn [call] in *.
  pose proof (fire_run body fuel' B data wk) as HrunB.
  destruct (loop_run_lookup _ _ _ _ _ _ _ _ HrunB Hj)
    as (l1 & fuel1 & w1 & _ & _ & Heq & _ & _ & Hlast1).
  cbn zeta in *. injection Heq as <- _ Ho1.
  destruct Hlast1 as (HoB & _ & HlenB); [congruence|].
  assert (out (fire body fuel' B data wk) = Raised e) as HB by congruence.
  destruct Hlast as (HoA & _ & HlenA); [congruence|].
  split_and!; [congruence|done..].
Qed.

Local Abbreviation addListener := (@addListener T E U fn).
Local Abbreviation addPassthroughListener :=
  (@addPassthroughListener T E U fn).
Local Abbreviation makeTypedEventController :=
  (@makeTypedEventController T E U fn).
Local Abbreviation addListeners := (@addListeners T E U fn).
Local Abbreviation TypedEvent_run := (@TypedEvent_run T E U fn).
Local Abbreviation TypedEvent_runs := (@TypedEvent_runs T E U fn).

Lemma TypedEvent_run_entry this (op : @TypedEvent_op fn) w :
  (TypedEvent_run this op w : @result T E U fn unit)
  = addListener this (entry op) w.
Proof. by destruct op. Qed.

(** X4.  Registrations through any handles, in any interleaving, are kept
    per controller and in call order: after a series of [addListener] and
    [addPassthroughListener] calls on existing controllers, the array of
    each controller is what it was followed by the entries pushed on that
    controller, in the order of the calls; no controller appears or
    disappears and the series returns. *)
Theorem registrations_kept_in_call_order
        (ops : list (chan * @TypedEvent_op fn)) w :
  Forall (fun p => p.1 < length (chans w)) ops ->
  let r : @result T E U fn unit := TypedEvent_runs ops w in
  out r = Normal tt /\
  length (chans (final r)) = length (chans w) /\
  forall c, _listeners c (final r) = _listeners c w ++ entries_for c ops.
Proof.
  revert w. induction ops as [|[this op] ops IH]; intros w Hops r.
  - split_and!; [done..|]. intros c. cbn. by rewrite app_nil_r.
  - apply Forall_cons in Hops as [Hthis Hops]. cbn in Hthis.
    subst r. cbn [TypedEvent_runs]. unfold bind.
    rewrite TypedEvent_run_entry, addListener_out. cbn [out final events].
    destruct (IH (final (addListener this (entry op) w))) as (Ho & Hlen & Hls).
    { by rewrite addListener_length. }
    split_and!; [done|by rewrite Hlen, addListener_length|].
    intros c. rewrite Hls. unfold entries_for at 2. cbn [omap list_omap fst snd].
    fold (entries_for c ops). destruct (decide (this = c)) as [->|Hne].
    + rewrite addListener_listeners by done. by rewrite <- app_assoc.
    + by rewrite addListener_others.
Qed.

Lemma addListeners_others this ls w c :
  c <> this ->
  _listeners c (final (addListeners this ls w : @result T E U fn unit))
  = _listeners c w.
Proof.
  intros Hne. revert w. induction ls as [|l ls IH]; intros w; [done|].
  cbn [addListeners]. unfold bind. rewrite addListener_out.
  cbn [final]. by rewrite IH, addListener_others.
Qed.

Lemma addListeners_length this ls w :
  length (chans (final (addListeners this ls w : @result T E U fn unit)))
  = length (chans w).
Proof.
  revert w. induction ls as [|l ls IH]; intros w; [done|].
  cbn [addListeners]. unfold bind. rewrite addListener_out.
  cbn [final]. by rewrite IH, addListener_length.
Qed.

Lemma fire_no_listener fuel c data w :
  _listeners c w = [] ->
  fire body (S fuel) c data w = Result (Normal tt) w [].
Proof. intros Hnil. unfold fire. cbn [fire_loop]. by rewrite Hnil. Qed.

(** X5.  Each call of [makeTypedEventController] returns a controller of
    its own: it leaves the arrays of the existing controllers as they were,
    two calls return different controllers, and listeners registered on the
    first are not listeners of the second, whose firing still does
    nothing. *)
Theorem controllers_independent w c1 c2 :
  let r1 : @result T E U fn chan := makeTypedEventController w in
  let r2 : @result T E U fn chan := makeTypedEventController (final r1) in
  out r1 = Normal c1 ->
  out r2 = Normal c2 ->
  c1 <> c2 /\
  (forall c, _listeners c (final r1) = _listeners c w) /\
  forall (Ls : list listener) fuel data,
    let w' := final (addListeners c1 Ls (final r2)
                     : @result T E U fn unit) in
    _listeners c1 w' = Ls /\
    _listeners c2 w' = [] /\
    fire body (S fuel) c2 data w' = Result (Normal tt) w' [].
Proof.
  intros r1 r2 H1 H2.
  destruct (makeTypedEventController_fresh (T:=T) (E:=E) w)
    as (Ho1 & Hnil1 & Hlt1).
  destruct (makeTypedEventController_fresh (T:=T) (E:=E) (final r1))
    as (Ho2 & Hnil2 & Hlt2).
  fold r1 in Ho1, Hnil1, Hlt1. fold r2 in Ho2, Hnil2, Hlt2.
  rewrite Ho1 in H1. rewrite Ho2 in H2.
  injection H1 as <-. injection H2 as <-.
  assert (length (chans w) <> length (chans (final r1))) as Hne by lia.
  assert (forall c, _listeners c (final r1) = _listeners c w) as Hold.
  { intros c. unfold r1.
    rewrite (grows_makeTypedEventController (T:=T) (E:=E) w c).
    apply app_nil_r. }
  split_and!; [done..|]. intros Ls fuel data w'.
  assert (_listeners (length (chans (final r1))) w' = []) as Hc2.
  { unfold w'. rewrite addListeners_others by done. done. }
  split_and!; [|done|].
  - unfold w'. rewrite addListeners_listeners by lia.
    unfold r2.
    rewrite (grows_makeTypedEventController (T:=T) (E:=E) (final r1)).
    cbn [events registered flat_map]. by rewrite app_nil_r, Hnil1.
  - by apply fire_no_listener.
Qed.

(** X6.  A passthrough registered twice fires its target twice: after two
    calls [A.addPassthroughListener(B)] on an existing controller [A], a
    firing of [A] with [d] that returns applies the bound [fire] of [B] at
    the two positions that follow the entries [A] had, and during each of
    the two applications every listener of [B] is applied to [d]. *)
Theorem passthrough_twice_fires_twice fuel A B LB data w0 :
  A < length (chans w0) ->
  let w := final (addPassthroughListener A B
                    (final (addPassthroughListener A B w0
                            : @result T E U fn unit))
                  : @result T E U fn unit) in
  LB ∈ _listeners B w ->
  let r := fire body fuel A data w in
  out r = Normal tt ->
  exists inner1 inner2,
    events r !! length (_listeners A w0)
    = Some (Invoked A (Bound B) data inner1 (Normal tt)) /\
    events r !! S (length (_listeners A w0))
    = Some (Invoked A (Bound B) data inner2 (Normal tt)) /\
    (LB, data) ∈ calls inner1 /\
    (LB, data) ∈ calls inner2.
Proof.
  intros HA w HLB r Hn.
  assert (_listeners A w = _listeners A w0 ++ [Bound B; Bound B]) as Hw.
  { unfold w, addPassthroughListener.
    rewrite !addListener_listeners; [|by rewrite ?addListener_length..].
    by rewrite <- app_assoc. }
  assert (forall k, k < 2 ->
            exists inner,
              events r !! (length (_listeners A w0) + k)
              = Some (Invoked A (Bound B) data inner (Normal tt)) /\
              (LB, data) ∈ calls inner) as Hat.
  { intros k Hk.
    assert (_listeners A (final r) !! (length (_listeners A w0) + k)
            = Some (Bound B)) as Hl.
    { eapply prefix_lookup_Some; [|apply grows_prefix, grows_fire].
      rewrite Hw, lookup_app_r by lia.
      replace (length (_listeners A w0) + k - length (_listeners A w0))
        with k by lia.
      by destruct k as [|[|?]]; [..|lia]. }
    destruct (fire_root fuel A data w _ _ Hn Hl)
      as (fuel' & wk & Hwk & Ho & Hev).
    cbn [call] in Ho, Hev. eexists. split; [exact Hev|].
    apply fire_applies_all; [done|].
    eapply elem_of_prefix; [done|apply Hwk]. }
  destruct (Hat 0) as (inner1 & H1 & Hin1); [lia|].
  destruct (Hat 1) as (inner2 & H2 & Hin2); [lia|].
  rewrite Nat.add_0_r in H1. rewrite Nat.add_1_r in H2.
  by exists inner1, inner2.
Qed.

Lemma applies_entries_nil {A} (m : @M T E U fn A) w :
  events (m w) = [] -> applies_entries m w.
Proof. intros Hev l d. rewrite Hev. by intros ?%elem_of_nil. Qed.

Lemma applies_entries_push c l w : applies_entries (push c l : @M T E U fn unit) w.
Proof.
  intros l' d. unfold push. destruct (chans w !! c); cbn;
    by intros ?%elem_of_nil.
Qed.

Lemma applies_entries_bind {A B} (m : @M T E U fn A) (k : A -> @M T E U fn B) w :
  applies_entries m w ->
  (forall a w', applies_entries (k a) w') ->
  (forall a, grows (k a)) ->
  applies_entries (bind m k) w.
Proof.
  intros Hm Hk Hg l d. unfold bind.
  destruct (out (m w)) as [a| |]; cbn [out final events]; [|apply Hm..].
  rewrite applied_app. intros [Hin|Hin]%elem_of_app.
  - destruct (Hm l d Hin) as [c Hc]. exists c.
    eapply elem_of_prefix; [done|by apply grows_prefix].
  - by apply (Hk a _ l d).
Qed.

Lemma applies_entries_catch (m : @M T E U fn unit) h w :
  applies_entries m w ->
  (forall e w', applies_entries (h e) w') ->
  (forall e, grows (h e)) ->
  applies_entries (catch m h) w.
Proof.
  intros Hm Hh Hg l d. unfold catch.
  destruct (out (m w)) as [a|e|]; cbn [out final events]; [apply Hm| |apply Hm].
  rewrite applied_app. intros [Hin|Hin]%elem_of_app.
  - destruct (Hm l d Hin) as [c Hc]. exists c.
    eapply elem_of_prefix; [done|by apply grows_prefix].
  - by apply (Hh e _ l d).
Qed.

Lemma applies_entries_exec (fire_ : chan -> T -> @M T E U fn unit) p w :
  (forall c d w', applies_entries (fire_ c d) w') ->
  (forall c d, grows (fire_ c d)) ->
  applies_entries (exec fire_ p) w.
Proof.
  intros Hf Hg. revert w.
  induction p as [|e|k IH|u k IH|c l k IH|c c2 k IH|c d k IH
                 |k IH|p IHp h IHh k IHk]; intros w; cbn [exec].
  - by apply applies_entries_nil.
  - by apply applies_entries_nil.
  - apply IH.
  - apply IH.
  - apply applies_entries_bind;
      [apply applies_entries_push|done|intros; by apply grows_exec].
  - apply applies_entries_bind;
      [apply applies_entries_push|done|intros; by apply grows_exec].
  - apply applies_entries_bind; [apply Hf|done|intros; by apply grows_exec].
  - apply applies_entries_bind;
      [by apply applies_entries_nil|done|intros; by apply grows_exec].
  - apply applies_entries_bind; [|done|intros; by apply grows_exec].
    apply applies_entries_catch; [done..|intros; by apply grows_exec].
Qed.

Lemma applies_entries_fire_loop fuel c data i w :
  applies_entries (fire_loop body fuel c data i) w.
Proof.
  revert c data i w. induction fuel as [|fuel IH]; intros c data i w.
  - by apply applies_entries_nil.
  - unfold applies_entries. cbn [fire_loop].
    destruct (_listeners c w !! i) as [l|] eqn:Hl;
      [|by intros l' d ?%elem_of_nil].
    change (fun c0 d => fire_loop body fuel c0 d 0) with (fire body fuel).
    apply (applies_entries_bind
             (observe c l data (call body (fire body fuel) l data))
             (fun _ => fire_loop body fuel c data (S i)) w);
      [|done|intros; apply grows_fire_loop].
    intros l' d. unfold observe. cbn [out final events].
    unfold applied. cbn [flat_map applications]. rewrite app_nil_r.
    intros [Heq|Hin]%elem_of_cons.
    + injection Heq as -> ->. exists c.
      eapply elem_of_prefix; [|apply call_prefix].
      by eapply list_elem_of_lookup_2.
    + revert l' d Hin.
      change (applies_entries (call body (fire body fuel) l data) w).
      destruct l as [f|b]; cbn [call].
      * apply applies_entries_exec; [intros; apply IH|].
        intros; apply grows_fire.
      * apply IH.
Qed.

(** X7.  [fire] applies nothing but registered listeners: whatever is
    applied during a firing, at any depth and whatever its outcome, is an
    entry of the array of some controller in the store the firing
    leaves. *)
Theorem fire_applies_only_entries fuel c data w l d :
  (l, d) ∈ applied (events (fire body fuel c data w)) ->
  exists c', l ∈ _listeners c' (final (fire body fuel c data w)).
Proof. apply (applies_entries_fire_loop fuel c data 0 w). Qed.

Lemma returns_in_common data chs (ls : list listener) :
  Forall (fun l => exists n, returns_in body data n chs l) ls ->
  exists n, Forall (returns_in body data n chs) ls.
Proof.
  induction 1 as [|l ls [n Hn] _ [m Hm]]; [by exists 0|].
  exists (n `max` m). apply Forall_cons. split.
  - eapply returns_in_le; [|done]. lia.
  - eapply Forall_impl; [done|]. intros l' Hl'.
    eapply returns_in_le; [|done]. lia.
Qed.

(** X8.  Passthroughs without a cycle return: when every entry is either a
    listener that only returns or a passthrough to a controller of smaller
    rank, each firing returns once the fuel is large enough, and leaves
    every array as it was. *)
Theorem acyclic_passthroughs_return (rank : chan -> nat) data w c :
  (forall a l, l ∈ _listeners a w ->
     quiet body data l \/ exists b, l = Bound b /\ rank b < rank a) ->
  exists fuel0, forall fuel,
    fuel0 <= fuel ->
    out (fire body fuel c data w) = Normal tt /\
    chans (final (fire body fuel c data w)) = chans w.
Proof.
  intros Hrank.
  enough (forall n a, rank a < n ->
            exists m, returns_in body data m (chans w) (Bound a)) as Hgen.
  { destruct (Hgen (S (rank c)) c) as [m Hm]; [lia|].
    exists m. intros fuel Hfuel. by apply (Hm fuel w). }
  induction n as [|n IH]; intros a Ha; [lia|].
  destruct (returns_in_common data (chans w) (_listeners a w)) as [m Hm].
  { apply Forall_forall. intros l Hl.
    destruct (Hrank a l Hl) as [Hq|(b & -> & Hb)].
    - exists 0. by apply quiet_returns_in.
    - apply (IH b). lia. }
  exists (S (m + length (_listeners a w))).
  intros fuel w' Hfuel Hw'. cbn [call].
  assert (_listeners a w' = _listeners a w) as Hsame
    by (unfold _listeners; by rewrite Hw').
  destruct (fire_loop_returns body fuel m a data 0 w') as (Ho & Hch & _).
  - by rewrite Hsame, Hw'.
  - rewrite Hsame. lia.
  - split; [done|]. exact (eq_trans Hch Hw').
Qed.

End Dispatch.

(** ** These theorems at work on the example client *)

(** Three controllers in a row: 0 forwards to 1, 1 forwards to 2. *)
Lemma passthrough_chain_forwards_witness :
  let w : @world (list (Example.name * nat)) Example.name :=
    World [[Bound 1]; [Bound 2]; [Closure Example.b]] [] in
  let r := fire Example.body 10 0 42 w in
  forwards w 0 2 /\
  Closure Example.b ∈ _listeners 2 w /\
  out r = Normal tt /\
  (Closure Example.b, 42) ∈ applied (events r).
Proof.
  intros w r.
  assert (forwards w 0 2) as Hpath.
  { apply (forwards_next w 0 1 2); [cbn; left|].
    apply (forwards_next w 1 2 2); [cbn; left|]. apply forwards_here. }
  assert (Closure Example.b ∈ _listeners 2 w) as Hb by (cbn; left).
  split; [exact Hpath|]. split; [exact Hb|]. split; [reflexivity|].
  exact (passthrough_chain_forwards Example.body 10 0 2 (Closure Example.b)
           42 w Hpath Hb eq_refl).
Defined.

(** A controller that forwards to itself. *)
Lemma passthrough_cycle_never_returns_witness :
  let w := Example.one [Closure Example.a; Bound 0] in
  (forall a, a = 0 -> exists b, b = 0 /\ Bound b ∈ _listeners a w) /\
  out (fire Example.body 10 0 42 w) <> Normal tt.
Proof.
  intros w.
  assert (forall a, a = 0 -> exists b, b = 0 /\ Bound b ∈ _listeners a w)
    as Hcycle.
  { intros a ->. exists 0. split; [reflexivity|]. cbn. right. left. }
  split; [exact Hcycle|].
  exact (passthrough_cycle_never_returns Example.body (fun a => a = 0)
           10 0 42 w Hcycle eq_refl).
Defined.

(** [failing] on the target of a passthrough. *)
Lemma passthrough_error_propagates_witness :
  let w := Example.two [Closure Example.a; Bound 1; Closure Example.c]
                       [Closure Example.failing; Closure Example.b] in
  let r := fire Example.body 10 0 42 w in
  let inner := [Invoked 1 (Closure Example.failing) 42 [] (Raised "boom")] in
  events r !! 1 = Some (Invoked 0 (Bound 1) 42 inner (Raised "boom")) /\
  inner !! 0
  = Some (Invoked 1 (Closure Example.failing) 42 [] (Raised "boom")) /\
  out r = Raised "boom" /\
  length (events r) = 2 /\
  length inner = 1.
Proof.
  intros w r inner. split; [reflexivity|]. split; [reflexivity|].
  destruct (passthrough_error_propagates Example.body 10 0 1 42 w 1 inner
              (Raised "boom") 0 (Closure Example.failing) [] "boom"
              eq_refl eq_refl) as (Ho & _ & Hlen & Hlen').
  split; [exact Ho|]. split; [exact Hlen|exact Hlen'].
Defined.

(** Registrations on two controllers, interleaved. *)
Lemma registrations_kept_in_call_order_witness :
  let w := Example.two [] [Closure Example.c] in
  let ops := [(0, OpAddListener (Closure Example.a));
              (1, OpAddPassthroughListener 0);
              (0, OpAddListener (Closure Example.b))] in
  let r := @TypedEvent_runs nat string _ _ ops w in
  Forall (fun p => p.1 < length (chans w)) ops /\
  _listeners 0 (final r) = [Closure Example.a; Closure Example.b] /\
  _listeners 1 (final r) = [Closure Example.c; Bound 0].
Proof.
  intros w ops r.
  assert (Forall (fun p => p.1 < length (chans w)) ops) as Hops
    by (repeat constructor).
  split; [exact Hops|].
  destruct (@registrations_kept_in_call_order nat string _ _ ops w Hops)
    as (_ & _ & H).
  split; [exact (H 0)|exact (H 1)].
Defined.

(** Two controllers made one after the other. *)
Lemma controllers_independent_witness :
  let r1 := @makeTypedEventController nat string _ _ Example.start in
  let r2 := @makeTypedEventController nat string _ _ (final r1) in
  let w' := final (@addListeners nat string _ _ 0 [Closure Example.a]
                     (final r2)) in
  out r1 = Normal 0 /\
  out r2 = Normal 1 /\
  _listeners 0 w' = [Closure Example.a] /\
  _listeners 1 w' = [] /\
  fire Example.body 1 1 42 w' = Result (Normal tt) w' [].
Proof.
  intros r1 r2 w'. split; [reflexivity|]. split; [reflexivity|].
  destruct (controllers_independent Example.body Example.start 0 1
              eq_refl eq_refl) as (_ & _ & H).
  exact (H [Closure Example.a] 0 42).
Defined.

(** The passthrough of scenario 4, registered twice. *)
Lemma passthrough_twice_fires_twice_witness :
  let w0 := Example.two [Closure Example.a] [Closure Example.b] in
  let w := final (@addPassthroughListener nat string _ _ 0 1
                    (final (@addPassthroughListener nat string _ _ 0 1 w0))) in
  let r := fire Example.body 10 0 42 w in
  0 < length (chans w0) /\
  Closure Example.b ∈ _listeners 1 w /\
  out r = Normal tt /\
  exists inner1 inner2,
    events r !! 1 = Some (Invoked 0 (Bound 1) 42 inner1 (Normal tt)) /\
    events r !! 2 = Some (Invoked 0 (Bound 1) 42 inner2 (Normal tt)) /\
    (Closure Example.b, 42) ∈ calls inner1 /\
    (Closure Example.b, 42) ∈ calls inner2.
Proof.
  intros w0 w r.
  assert (0 < length (chans w0)) as H0 by (cbn; lia).
  assert (Closure Example.b ∈ _listeners 1 w) as H1 by (cbn; left).
  split; [exact H0|]. split; [exact H1|]. split; [reflexivity|].
  exact (passthrough_twice_fires_twice Example.body 10 0 1
           (Closure Example.b) 42 w0 H0 H1 eq_refl).
Defined.

(** [b], registered by [subscriber] during the firing, is in the array the
    firing leaves. *)
Lemma fire_applies_only_entries_witness :
  let w := Example.one [Closure Example.subscriber] in
  let r := fire Example.body 10 0 42 w in
  (Closure Example.b, 42) ∈ applied (events r) /\
  exists c', Closure Example.b ∈ _listeners c' (final r).
Proof.
  intros w r.
  assert ((Closure Example.b, 42) ∈ applied (events r)) as Hin
    by (cbn; right; left).
  split; [exact Hin|].
  exact (fire_applies_only_entries Example.body 10 0 42 w
           (Closure Example.b) 42 Hin).
Defined.

(** The store of scenario 4: controller 0 has rank 1, controller 1 rank 0. *)
Lemma acyclic_passthroughs_return_witness :
  let w := Example.two [Closure Example.a; Bound 1] [Closure Example.b] in
  let rank := fun a : chan => 1 - a in
  (forall a l, l ∈ _listeners a w ->
     quiet Example.body 42 l \/ exists b, l = Bound b /\ rank b < rank a) /\
  exists fuel0, forall fuel,
    fuel0 <= fuel ->
    out (fire Example.body fuel 0 42 w) = Normal tt /\
    chans (final (fire Example.body fuel 0 42 w)) = chans w.
Proof.
  intros w rank.
  assert (forall a l, l ∈ _listeners a w ->
            quiet Example.body 42 l \/
            exists b, l = Bound b /\ rank b < rank a) as Hrank.
  { intros [|[|a]] l Hl; cbn in Hl.
    - apply elem_of_cons in Hl as [->|Hl].
      + left. intros fuel w'. split; reflexivity.
      + apply elem_of_cons in Hl as [->|Hl]; [|by apply elem_of_nil in Hl].
        right. exists 1. split; [reflexivity|]. cbn. lia.
    - apply elem_of_cons in Hl as [->|Hl]; [|by apply elem_of_nil in Hl].
      left. intros fuel w'. split; reflexivity.
    - by apply elem_of_nil in Hl. }
  split; [exact Hrank|].
  exact (acyclic_passthroughs_return Example.body rank 42 w 0 Hrank).
Defined.
